(** * Bulk e-mail dispatcher ([send_emails.py]): shallow embedding and
      verification of its dispatch engine.

    The development follows the source file top-down:
    - [Text]: the string primitives the script relies on ([str.strip],
      [str.lower], truthiness of strings), over ASCII text;
    - [Fields]: [FALLBACKS] and [ensure_required_fields];
    - [Templates]: [extract_placeholders] and [Template.safe_substitute];
    - [Csv]: [csv_preflight] and [load_recipients] over an already tokenised
      table;
    - [Message]: [build_message];
    - [Dispatch]: the send loop of [main] with its retry/backoff logic, as a
      state-passing function over an explicit oracle for everything the
      validator, the network and the random generator decide;
    - [Run]: [smtp_config_preflight] and the whole of [main], with its early
      exits;
    - [Session]: [smtp_client], over an oracle for the calls it makes on
      [smtplib];
    - [Attach]: [attach_file], given what [mimetypes.guess_type] and the file
      system answer;
    then the observations made on runs, sample runs, and the properties.

    Python dictionaries are finite maps ([gmap string string]), Python sets
    are [gset string], unbounded Python integers that only count are [nat],
    SMTP reply codes are [Z], and durations are exact rationals ([Q]).

    A run is observed through its counters and through the trace of the
    sessions it opens and closes, the messages it sends and the sleeps it
    takes.  Log lines are not part of the trace; the warnings of
    [ensure_required_fields] are returned by its model.  Exceptions other
    than those the script catches itself (a template that cannot be read, a
    header value the [email] package refuses) are outside the model. *)

From Stdlib Require Import QArith Qminmax.
From stdpp Require Import gmap strings list sorting pretty.

(* ===================================================================== *)
(** ** String primitives *)
(* ===================================================================== *)

Module Text.

(** [str.isspace] restricted to code points below 128: TAB, LF, VT, FF, CR,
    the four separators FS, GS, RS, US, and the space. *)
Definition is_space (c : Ascii.ascii) : bool :=
  let n := Ascii.nat_of_ascii c in
  ((9 <=? n) && (n <=? 13)) || ((28 <=? n) && (n <=? 32)).

Fixpoint lstrip (s : string) : string :=
  match s with
  | String c rest => if is_space c then lstrip rest else s
  | EmptyString => EmptyString
  end.

(** [rstrip] keeps a character when it is not blank or when something
    survives to its right. *)
Fixpoint rstrip (s : string) : string :=
  match s with
  | String c rest =>
      match rstrip rest with
      | EmptyString => if is_space c then EmptyString else String c EmptyString
      | kept => String c kept
      end
  | EmptyString => EmptyString
  end.

(** [s.strip()] *)
Definition strip (s : string) : string := rstrip (lstrip s).

Definition lower_ascii (c : Ascii.ascii) : Ascii.ascii :=
  let n := Ascii.nat_of_ascii c in
  if (65 <=? n) && (n <=? 90) then Ascii.ascii_of_nat (n + 32) else c.

(** [s.lower()] *)
Fixpoint lower (s : string) : string :=
  match s with
  | String c rest => String (lower_ascii c) (lower rest)
  | EmptyString => EmptyString
  end.

(** Python truthiness of a string: [bool(s)], i.e. [s != ""]. *)
Definition truthy (s : string) : bool :=
  match s with
  | EmptyString => false
  | String _ _ => true
  end.

(** [(o or "")] for [o] a string or [None]. *)
Definition or_empty (o : option string) : string := default "" o.

(** [", ".join(l)] *)
Fixpoint join (sep : string) (l : list string) : string :=
  match l with
  | [] => ""
  | [x] => x
  | x :: rest => x +:+ sep +:+ join sep rest
  end.

End Text.

(* ===================================================================== *)
(** ** Required fields and fallbacks *)
(* ===================================================================== *)

Module Fields.
Import Text.

(** A recipient record: the [dict] built by [load_recipients]. *)
Abbreviation row := (gmap string string).

(** The module-level table [FALLBACKS]. *)
Definition FALLBACKS : gmap string string :=
  {[ "name" := "there"; "company" := "" ]}.

(** [required = {"email"} | (used_keys & {"name", "company"})] *)
Definition required (used_keys : gset string) : gset string :=
  {[ "email" ]} ∪ (used_keys ∩ {[ "name"; "company" ]}).

(** [val = (row.get(key) or "").strip()] *)
Definition field_value (r : row) (key : string) : string :=
  strip (or_empty (r !! key)).

(** The text returned on line 88. *)
Definition missing_reason (i total : nat) (key : string) : string :=
  "[" +:+ pretty i +:+ "/" +:+ pretty total +:+
  "] Missing required field '" +:+ key +:+ "'. Skipping.".

(** The warning logged on line 90. *)
Definition fallback_warning (i total : nat) (key fb : string) : string :=
  "[" +:+ pretty i +:+ "/" +:+ pretty total +:+
  "] Missing '" +:+ key +:+ "', using fallback '" +:+ fb +:+ "'.".

(** What a call leaves behind: the returned pair [(ok, reason)], the record
    as mutated in place, and the warnings logged, oldest first. *)
Record outcome := Outcome {
  ok : bool;
  reason : string;
  row_after : row;
  warnings : list string
}.

(** The body of [ensure_required_fields], with the fallback table and the
    order in which the [for] loop visits [required - {"email"}] made
    explicit (Python does not fix the iteration order of a set). *)
Fixpoint ensure_keys (fallbacks : gmap string string) (i total : nat)
    (keys : list string) (r : row) (logged : list string) : outcome :=
  match keys with
  | [] => Outcome true "" r logged
  | key :: rest =>
      if truthy (field_value r key)
      then ensure_keys fallbacks i total rest r logged
      else
        match fallbacks !! key with
        | None => Outcome false (missing_reason i total key) r logged
        | Some fb =>
            ensure_keys fallbacks i total rest (<[key := fb]> r)
              (logged ++ [fallback_warning i total key fb])
        end
  end.

(** The keys the loop visits, in the order [elements] lists them. *)
Definition loop_keys (used_keys : gset string) : list string :=
  elements (required used_keys ∖ {[ "email" ]}).

Definition ensure_required_fields_with (fallbacks : gmap string string)
    (r : row) (used_keys : gset string) (i total : nat) : outcome :=
  ensure_keys fallbacks i total (loop_keys used_keys) r [].

(** [ensure_required_fields(row, used_keys, i, total)] *)
Definition ensure_required_fields (r : row) (used_keys : gset string)
    (i total : nat) : outcome :=
  ensure_required_fields_with FALLBACKS r used_keys i total.

End Fields.

(* ===================================================================== *)
(** ** Templates: [extract_placeholders] and [Template.safe_substitute] *)
(* ===================================================================== *)

Module Templates.

Definition code (c : Ascii.ascii) : nat := Ascii.nat_of_ascii c.

Definition is_letter (c : Ascii.ascii) : bool :=
  ((65 <=? code c) && (code c <=? 90)) || ((97 <=? code c) && (code c <=? 122)).
Definition is_digit (c : Ascii.ascii) : bool :=
  (48 <=? code c) && (code c <=? 57).
(** [[a-zA-Z_]] *)
Definition id_start (c : Ascii.ascii) : bool := is_letter c || (code c =? 95).
(** A word character of the regular expression, on ASCII text; also the
    identifier characters of [string.Template] under [re.IGNORECASE]. *)
Definition id_char (c : Ascii.ascii) : bool := id_start c || is_digit c.
Definition is_dollar (c : Ascii.ascii) : bool := code c =? 36.
Definition is_lbrace (c : Ascii.ascii) : bool := code c =? 123.
Definition is_rbrace (c : Ascii.ascii) : bool := code c =? 125.

(** Where a left-to-right scan stands with respect to a placeholder that
    may have started.  Identifiers are accumulated in reverse. *)
Inductive scan :=
| Plain
| Dollar
| Named (rev_id : string)
| BraceOpen
| Braced (rev_id : string).

(** *** [extract_placeholders]

    [pat.findall] for the pattern: a dollar sign, an opening brace, an
    identifier (captured), a closing brace; leftmost, non-overlapping
    matches.  A failed attempt consumed only ["${"] and identifier
    characters, none of which can start a match, so the scan resumes at the
    character that broke it. *)
Definition resume_find (c : Ascii.ascii) : scan :=
  if is_dollar c then Dollar else Plain.

Fixpoint findall_from (m : scan) (s : string) : list string :=
  match s with
  | EmptyString => []
  | String c rest =>
      match m with
      | Plain | Named _ => findall_from (resume_find c) rest
      | Dollar =>
          findall_from (if is_lbrace c then BraceOpen else resume_find c) rest
      | BraceOpen =>
          findall_from
            (if id_start c then Braced (String c "") else resume_find c) rest
      | Braced acc =>
          if id_char c then findall_from (Braced (String c acc)) rest
          else if is_rbrace c then String.rev acc :: findall_from Plain rest
          else findall_from (resume_find c) rest
      end
  end.

Definition findall (s : string) : list string := findall_from Plain s.

(** [extract_placeholders]: the union of the keys of all templates. *)
Definition extract_placeholders (tmpls : list string) : gset string :=
  list_to_set (concat (findall <$> tmpls)).

(** *** [Template.safe_substitute]

    The standard pattern is a dollar sign followed by one of: a second
    dollar sign, [id], [id] in braces, or nothing (ill-formed), with
    [id = [_a-z][_a-z0-9]*], ASCII, case-insensitive.  A known key is
    replaced by its value, an unknown key and an ill-formed [$] are left
    as written, ["$$"] becomes ["$"]. *)
Definition subst_named (mapping : gmap string string) (rev_id : string) : string :=
  let key := String.rev rev_id in
  default ("$" +:+ key) (mapping !! key).

Definition subst_braced (mapping : gmap string string) (rev_id : string) : string :=
  let key := String.rev rev_id in
  default ("${" +:+ key +:+ "}") (mapping !! key).

(** What is written out, and the next state, when character [c] is read
    outside any placeholder. *)
Definition plain_step (c : Ascii.ascii) : string * scan :=
  if is_dollar c then ("", Dollar) else (String c "", Plain).

Definition substitute_step (mapping : gmap string string) (m : scan)
    (c : Ascii.ascii) : string * scan :=
  match m with
  | Plain => plain_step c
  | Dollar =>
      if is_dollar c then ("$", Plain)
      else if id_start c then ("", Named (String c ""))
      else if is_lbrace c then ("", BraceOpen)
      else ("$" +:+ String c "", Plain)
  | Named acc =>
      if id_char c then ("", Named (String c acc))
      else let '(out, m') := plain_step c in (subst_named mapping acc +:+ out, m')
  | BraceOpen =>
      if id_start c then ("", Braced (String c ""))
      else let '(out, m') := plain_step c in ("${" +:+ out, m')
  | Braced acc =>
      if id_char c then ("", Braced (String c acc))
      else if is_rbrace c then (subst_braced mapping acc, Plain)
      else let '(out, m') := plain_step c in
           ("${" +:+ String.rev acc +:+ out, m')
  end.

(** What is written out when the template ends in state [m]. *)
Definition substitute_end (mapping : gmap string string) (m : scan) : string :=
  match m with
  | Plain => ""
  | Dollar => "$"
  | Named acc => subst_named mapping acc
  | BraceOpen => "${"
  | Braced acc => "${" +:+ String.rev acc
  end.

Fixpoint substitute_from (mapping : gmap string string) (m : scan)
    (s : string) : string :=
  match s with
  | EmptyString => substitute_end mapping m
  | String c rest =>
      let '(out, m') := substitute_step mapping m c in
      out +:+ substitute_from mapping m' rest
  end.

(** [Template(tmpl).safe_substitute(mapping)] *)
Definition safe_substitute (tmpl : string) (mapping : gmap string string) : string :=
  substitute_from mapping Plain tmpl.

End Templates.

(* ===================================================================== *)
(** ** The recipient table: [csv_preflight] and [load_recipients] *)
(* ===================================================================== *)

Module Csv.
Import Text Fields.

(** The file as [csv.reader] tokenises it: one list of cells per line,
    header line first.  A missing file is [None] at the call site. *)
Abbreviation table := (list (list string)).

(** [csv_preflight(csv_path, required)] on the tokenised file; [None] is
    the [FileNotFoundError] branch. *)
Definition csv_preflight (file : option table) (required_cols : list string) : bool :=
  match file with
  | None => false
  | Some lines =>
      match lines with
      | [] | [] :: _ => false                 (* [not headers] *)
      | headers :: _ =>
          let norm := (λ h, lower (strip h)) <$> headers in
          let missing := filter (λ c, c ∉ norm) required_cols in
          match missing with
          | [] => true
          | _ :: _ => false
          end
      end
  end.

(** [d[k] = v] on an insertion-ordered [dict]: an existing key keeps its
    position. *)
Fixpoint dict_set (k v : string) (d : list (string * string)) : list (string * string) :=
  match d with
  | [] => [(k, v)]
  | (k', v') :: d' =>
      if String.eqb k k' then (k, v) :: d' else (k', v') :: dict_set k v d'
  end.

(** The row [csv.DictReader] hands out for one line: [dict(zip(fieldnames,
    cells))], with the field names beyond the line's last cell set to
    [None], which [(v or "")] reads as [""]; surplus cells go under the key
    [None], which [load_recipients] skips. *)
Fixpoint zip_row (fieldnames cells : list string) : list (string * string) :=
  match fieldnames with
  | [] => []
  | k :: ks =>
      match cells with
      | [] => (k, "") :: zip_row ks []
      | v :: vs => (k, v) :: zip_row ks vs
      end
  end.

Definition dict_row (fieldnames cells : list string) : list (string * string) :=
  foldl (λ d kv, dict_set kv.1 kv.2 d) [] (zip_row fieldnames cells).

(** The inner loop of [load_recipients]: [out[k.strip().lower()] =
    (v or "").strip()]. *)
Definition normalise_row (items : list (string * string)) : row :=
  foldl (λ out kv, <[lower (strip kv.1) := strip kv.2]> out) ∅ items.

(** [any(out.values())] *)
Definition any_value (out : row) : bool :=
  existsb (λ kv, truthy kv.2) (map_to_list out).

(** [list(load_recipients(csv_path))]: [DictReader] takes the first line
    as field names and drops empty lines; rows whose values are all empty
    are not yielded. *)
Definition load_recipients (lines : table) : list row :=
  match lines with
  | [] => []
  | fieldnames :: body =>
      let cells := filter (λ l, l ≠ []) body in
      filter (λ out, any_value out = true)
             ((λ l, normalise_row (dict_row fieldnames l)) <$> cells)
  end.

End Csv.

(* ===================================================================== *)
(** ** Configuration *)
(* ===================================================================== *)

(** The module-level settings read from [config.env].  Integer settings keep
    the value parsed from the environment; the clamping the script applies
    ([max(1, ...)]) is in [MAX_RETRIES] and [RATE_LIMIT_PER_MIN] below. *)
Record config := Config {
  SMTP_HOST : string;
  SMTP_PORT : Z;
  SMTP_SECURE : string;
  SMTP_USER : string;
  SMTP_PASS : string;
  FROM_NAME : string;
  FROM_EMAIL : string;
  REPLY_TO : string;
  SUBJECT_TMPL : string;
  ATTACHMENT_PATH : option string;
  rate_limit_env : Z;
  max_retries_env : Z;
  DRY_RUN : bool;
  UNSUBSCRIBE_MAILTO : string;
  UNSUBSCRIBE_URL : string;
  SMTP_DEEP_CHECK : bool
}.

(** [RATE_LIMIT_PER_MIN = max(1, int(os.getenv("RATE_LIMIT_PER_MIN", "60")))] *)
Definition RATE_LIMIT_PER_MIN (cfg : config) : Z := Z.max 1 (rate_limit_env cfg).

(** [MAX_RETRIES = max(1, int(os.getenv("MAX_RETRIES", "3")))] *)
Definition MAX_RETRIES (cfg : config) : nat := Z.to_nat (Z.max 1 (max_retries_env cfg)).


(* ===================================================================== *)
(** ** [build_message] *)
(* ===================================================================== *)

Module Message.
Import Text Fields Templates.

(** What [attach_file] adds to a message. *)
Record attachment := Attachment {
  maintype : string;
  subtype : string;
  filename : string;
  data : string
}.

(** An [EmailMessage] as [build_message] leaves it: the headers in the
    order they are set, the two alternative bodies, the attachment. *)
Record message := Message {
  headers : list (string * string);
  text_body : string;
  html_body : string;
  attached : option attachment
}.

(** [msg[name]]: the first header of that name. *)
Definition header (name : string) (m : message) : option string :=
  snd <$> List.find (λ h, String.eqb h.1 name) (headers m).

(** The class of characters after which [formataddr] quotes a display
    name: brackets, backslash, parentheses, angle brackets, at sign, comma,
    colon, semicolon, double quote, full stop. *)
Definition is_special (c : Ascii.ascii) : bool :=
  bool_decide (code c ∈ [93; 91; 92; 40; 41; 60; 62; 64; 44; 58; 59; 34; 46]).

Fixpoint has_special (s : string) : bool :=
  match s with
  | EmptyString => false
  | String c rest => is_special c || has_special rest
  end.

(** Backslash and double quote are escaped with a backslash. *)
Fixpoint escape (s : string) : string :=
  match s with
  | EmptyString => EmptyString
  | String c rest =>
      if (code c =? 92) || (code c =? 34)
      then String (Ascii.ascii_of_nat 92) (String c (escape rest))
      else String c (escape rest)
  end.

(** [email.utils.formataddr((name, address))] on ASCII text. *)
Definition formataddr (name address : string) : string :=
  if truthy name then
    let quotes := if has_special name then String (Ascii.ascii_of_nat 34) "" else "" in
    quotes +:+ escape name +:+ quotes +:+ " <" +:+ address +:+ ">"
  else address.

(** The [List-Unsubscribe] entries [lh] of lines 283-287. *)
Definition unsubscribe_links (cfg : config) (substitutions : gmap string string)
    : list string :=
  (if truthy (UNSUBSCRIBE_MAILTO cfg)
   then ["<mailto:" +:+ UNSUBSCRIBE_MAILTO cfg +:+ ">"] else [])
  ++
  (if truthy (UNSUBSCRIBE_URL cfg)
   then ["<" +:+ safe_substitute (UNSUBSCRIBE_URL cfg) substitutions +:+ ">"] else []).

(** [build_message(row, subject_tmpl, html_tmpl, text_tmpl)].  The three
    things the function takes from its surroundings rather than from its
    arguments are explicit: the value [make_msgid()] returns, the value
    [formatdate(localtime=True)] returns, and what [attach_file] manages to
    read for a path ([None] when it raises, which line 303 only logs).
    [row["email"]] is always present when [main] calls the function. *)
Definition build_message (cfg : config) (msgid date : string)
    (attach_file : string → option attachment)
    (r : row) (subject_tmpl html_tmpl text_tmpl : string) : message :=
  let substitutions := r in
  let lh := unsubscribe_links cfg substitutions in
  {| headers :=
       [ ("Subject", safe_substitute subject_tmpl substitutions);
         ("From", formataddr (FROM_NAME cfg) (FROM_EMAIL cfg));
         ("Reply-To", REPLY_TO cfg);
         ("Message-ID", msgid);
         ("Date", date);
         ("To", formataddr (default "" (r !! "name")) (default "" (r !! "email"))) ]
       ++ match lh with
          | [] => []
          | _ :: _ => [ ("List-Unsubscribe", join ", " lh);
                        ("List-Unsubscribe-Post", "List-Unsubscribe=One-Click") ]
          end;
     text_body := safe_substitute text_tmpl substitutions;
     html_body := safe_substitute html_tmpl substitutions;
     attached := match ATTACHMENT_PATH cfg with
                 | Some path => attach_file path
                 | None => None
                 end |}.

End Message.

(* ===================================================================== *)
(** ** The send loop of [main] *)
(* ===================================================================== *)

Module Dispatch.
Import Text Fields Templates Message.

(** How one call [smtp.send_message(msg)] ends, by the [except] clause
    that receives it. *)
Inductive send_result :=
| Accepted
| ServerDisconnected                  (* smtplib.SMTPServerDisconnected *)
| ResponseException (smtp_code : Z)   (* smtplib.SMTPResponseException *)
| OtherException.                     (* any other Exception *)

(** Everything the loop does not decide itself, indexed by the position
    [i] of the recipient and, inside the retry loop, by the attempt. *)
Record world := World {
  validate_email : nat → string → option string;   (* [None]: EmailNotValidError *)
  send_message : nat → nat → send_result;
  reconnects : nat → nat → bool;     (* [smtp_client()] on line 425 returns *)
  backoff_uniform : nat → nat → Q;   (* [random.uniform(0, JITTER)], line 447 *)
  pacing_uniform : nat → Q;          (* [random.uniform(0, JITTER)], line 456 *)
  make_msgid : nat → string;
  formatdate : nat → string;
  attach_file : string → option attachment
}.

(** What the run does to the outside, in order. *)
Inductive event :=
| Connect (session : nat)                          (* [smtp_client()] returned *)
| SendMessage (session i attempt : nat) (m : message)
| Sleep (seconds : Q)
| Close (session : nat).                           (* [__exit__] of the [with] *)

(** The line that settled a recipient. *)
Inductive branch :=
| InvalidEmail        (* lines 384-388 *)
| Suppressed          (* lines 392-395 *)
| MissingField        (* lines 398-401 *)
| DryRunSkipped       (* lines 408-413 *)
| Delivered           (* lines 415-418 *)
| GaveUp              (* lines 450-452 *)
| Exhausted.          (* the [for] ran out of attempts on a [continue] *)

(** The local variables of [main] that change in the loop.  Sessions are
    numbered in the order [smtp_client()] creates them; [smtp] is the one
    the variable [smtp] is bound to. *)
Record state := State {
  sent : nat;
  failed : nat;
  invalid_total : nat;
  skipped : nat;
  smtp : nat;
  sessions : nat;
  trace : list event
}.

Definition emit (e : event) (st : state) : state :=
  State (sent st) (failed st) (invalid_total st) (skipped st)
        (smtp st) (sessions st) (trace st ++ [e]).
Definition count_sent (st : state) : state :=
  State (S (sent st)) (failed st) (invalid_total st) (skipped st)
        (smtp st) (sessions st) (trace st).
Definition count_failed (st : state) : state :=
  State (sent st) (S (failed st)) (invalid_total st) (skipped st)
        (smtp st) (sessions st) (trace st).
Definition count_invalid (st : state) : state :=
  State (sent st) (failed st) (S (invalid_total st)) (skipped st)
        (smtp st) (sessions st) (trace st).
Definition count_skipped (st : state) : state :=
  State (sent st) (failed st) (invalid_total st) (S (skipped st))
        (smtp st) (sessions st) (trace st).

(** [smtp = smtp_client()]: a fresh session, to which [smtp] is rebound. *)
Definition connect (st : state) : state :=
  emit (Connect (sessions st))
    (State (sent st) (failed st) (invalid_total st) (skipped st)
           (sessions st) (S (sessions st)) (trace st)).

(** [normalize_email(addr)] for recipient [i]. *)
Definition normalize_email (w : world) (i : nat) (addr : string) : option string :=
  validate_email w i addr.

(** [is_temp = 400 <= code < 500] *)
Definition is_temp_code (code : Z) : bool := (400 <=? code)%Z && (code <? 500)%Z.

(** [min(60, (2 ** (attempt - 1)) + random.uniform(0, JITTER))] *)
Definition sleep_time (attempt : nat) (jitter : Q) : Q :=
  Qmin 60 (inject_Z (2 ^ Z.of_nat (attempt - 1)) + jitter).

(** Lines 445-452: what follows an attempt that ended in an [except]
    clause which set [is_temp].  [again] is the rest of the [for] loop. *)
Definition after_failure (w : world) (cfg : config) (i attempt : nat)
    (is_temp : bool) (again : state → branch * state) (st : state)
    : branch * state :=
  if (attempt <? MAX_RETRIES cfg) && is_temp
  then again (emit (Sleep (sleep_time attempt (backoff_uniform w i attempt))) st)
  else (GaveUp, count_failed st).

(** Lines 406-452: the iterations of [for attempt in range(1, MAX_RETRIES
    + 1)] that remain, [attempts] being the values [attempt] still has to
    take.  [break] returns, [continue] goes on with the rest. *)
Fixpoint retry (w : world) (cfg : config) (i : nat) (msg : message)
    (attempts : list nat) (st : state) : branch * state :=
  match attempts with
  | [] => (Exhausted, st)
  | attempt :: rest =>
      if DRY_RUN cfg then (DryRunSkipped, count_skipped st)
      else
        let st := emit (SendMessage (smtp st) i attempt msg) st in
        match send_message w i attempt with
        | Accepted => (Delivered, count_sent st)
        | ServerDisconnected =>
            if reconnects w i attempt
            then retry w cfg i msg rest (connect st)
            else after_failure w cfg i attempt true (retry w cfg i msg rest) st
        | ResponseException code =>
            after_failure w cfg i attempt (is_temp_code code)
              (retry w cfg i msg rest) st
        | OtherException =>
            after_failure w cfg i attempt true (retry w cfg i msg rest) st
        end
  end.

(** [range(1, MAX_RETRIES + 1)] *)
Definition attempts (cfg : config) : list nat := seq 1 (MAX_RETRIES cfg).

(** [pause_seconds = 60.0 / RATE_LIMIT_PER_MIN] *)
Definition pause_seconds (cfg : config) : Q := 60 / inject_Z (RATE_LIMIT_PER_MIN cfg).

(** What the loop of [main] is given: the settings, the three templates,
    [used_keys] and the suppression set. *)
Record job := Job {
  cfg : config;
  subject_tmpl : string;
  html_tmpl : string;
  text_tmpl : string;
  used_keys : gset string;
  suppressions : gset string
}.

(** Lines 403-456: build the message, send it with retries, pace. *)
Definition send_step (w : world) (j : job) (total i : nat) (r : row)
    (st : state) : branch * state :=
  let msg := build_message (cfg j) (make_msgid w i) (formatdate w i) (attach_file w)
               r (subject_tmpl j) (html_tmpl j) (text_tmpl j) in
  let '(b, st) := retry w (cfg j) i msg (attempts (cfg j)) st in
  (b, if i <? total
      then emit (Sleep (pause_seconds (cfg j) + pacing_uniform w i)) st
      else st).

(** Lines 397-456: field completion, then [send_step]. *)
Definition complete_step (w : world) (j : job) (total i : nat) (r : row)
    (st : state) : branch * state :=
  let o := ensure_required_fields r (used_keys j) i total in
  if ok o then send_step w j total i (row_after o) st
  else (MissingField, count_failed st).

(** Lines 382-456: the body of the loop over the recipients. *)
Definition process_recipient (w : world) (j : job) (total i : nat) (r : row)
    (st : state) : branch * state :=
  let email := strip (or_empty (r !! "email")) in
  match normalize_email w i email with
  | Some normalized =>
      if truthy normalized then
        let r := <["email" := normalized]> r in
        if bool_decide (lower normalized ∈ suppressions j)
        then (Suppressed, count_skipped st)
        else complete_step w j total i r st
      else (InvalidEmail, count_invalid (count_failed st))
  | None => (InvalidEmail, count_invalid (count_failed st))
  end.

(** [for i, row in enumerate(rows, start=1)], from position [i] on; the
    branches taken are collected in order. *)
Fixpoint process_from (w : world) (j : job) (total i : nat) (rows : list row)
    (st : state) : list branch * state :=
  match rows with
  | [] => ([], st)
  | r :: rest =>
      let '(b, st) := process_recipient w j total i r st in
      let '(bs, st) := process_from w j total (S i) rest st in
      (b :: bs, st)
  end.

(** Lines 375-378 and the entry of the [with] statement on line 380: the
    counters at zero, the first session open and bound to [smtp]. *)
Definition initial : state := connect (State 0 0 0 0 0 0 []).

(** Lines 375-456 when the first [smtp_client()] returns: the loop inside
    [with smtp_client() as smtp], then the [__exit__] of the [with]
    statement, which closes the object the statement was entered with. *)
Definition dispatch (w : world) (j : job) (rows : list row) : list branch * state :=
  let entered := smtp initial in
  let '(bs, st) := process_from w j (length rows) 1 rows initial in
  (bs, emit (Close entered) st).

End Dispatch.

(* ===================================================================== *)
(** ** [smtp_config_preflight] and [main] *)
(* ===================================================================== *)

Module Run.
Import Text Fields Templates Csv Message Dispatch.


(** What the probes of [smtp_config_preflight] and the first
    [smtp_client()] of [main] find. *)
Record network := Network {
  deliverable : string → bool;   (* [validate_email] accepts the address *)
  resolves : string → bool;      (* [socket.getaddrinfo] returns *)
  reachable : bool;              (* the connection test of step 6 passes *)
  login_works : bool;            (* the [smtp_client()] of step 7 returns *)
  session_opens : bool           (* the [smtp_client()] of line 380 returns *)
}.

Inductive preflight_error :=
| MissingSmtpConfig (names : list string)
| InvalidPort
| UnsupportedSecure
| InvalidFromEmail
| InvalidReplyTo
| CannotResolve
| CannotConnect
| LoginFailed.

(** The list [missing] of step 1. *)
Definition missing_settings (c : config) : list string :=
  (if truthy (SMTP_HOST c) then [] else ["SMTP_HOST"]) ++
  (if (SMTP_PORT c =? 0)%Z then ["SMTP_PORT"] else []) ++
  (if truthy (SMTP_USER c) then [] else ["SMTP_USER"]) ++
  (if truthy (SMTP_PASS c) then [] else ["SMTP_PASS"]) ++
  (if truthy (FROM_EMAIL c) then [] else ["FROM_EMAIL"]).

(** The list [errors] after steps 1 to 6. *)
Definition static_errors (c : config) (n : network) : list preflight_error :=
  let secure := lower (SMTP_SECURE c) in
  (match missing_settings c with
   | [] => []
   | names => [MissingSmtpConfig names]
   end) ++
  (if (1 <=? SMTP_PORT c)%Z && (SMTP_PORT c <=? 65535)%Z then [] else [InvalidPort]) ++
  (if bool_decide (secure ∈ ["starttls"; "ssl"; "none"]) then [] else [UnsupportedSecure]) ++
  (if truthy (FROM_EMAIL c)
   then if deliverable n (FROM_EMAIL c) then [] else [InvalidFromEmail]
   else [InvalidFromEmail]) ++
  (if truthy (REPLY_TO c)
   then if deliverable n (REPLY_TO c) then [] else [InvalidReplyTo]
   else []) ++
  (if truthy (SMTP_HOST c)
   then if resolves n (SMTP_HOST c) then [] else [CannotResolve]
   else []) ++
  (if reachable n then [] else [CannotConnect]).

(** The list [errors] at step 9. *)
Definition preflight_errors (c : config) (n : network) : list preflight_error :=
  let errors := static_errors c n in
  match errors with
  | [] => if SMTP_DEEP_CHECK c && negb (login_works n) then [LoginFailed] else []
  | _ :: _ => errors
  end.

(** [smtp_config_preflight()] *)
Definition smtp_config_preflight (c : config) (n : network) : bool :=
  match preflight_errors c n with
  | [] => true
  | _ :: _ => false
  end.

(** [all([SMTP_HOST, SMTP_PORT, SMTP_USER, SMTP_PASS, FROM_EMAIL])] *)
Definition config_complete (c : config) : bool :=
  truthy (SMTP_HOST c) && negb (SMTP_PORT c =? 0)%Z && truthy (SMTP_USER c)
  && truthy (SMTP_PASS c) && truthy (FROM_EMAIL c).





End Run.

(* ===================================================================== *)
(** ** [smtp_client] *)
(* ===================================================================== *)

Module Session.

(** The calls [smtp_client] makes on [smtplib], each of which returns or
    raises. *)
Inductive call :=
| OpenSSL        (* smtplib.SMTP_SSL(SMTP_HOST, SMTP_PORT, ...) *)
| OpenPlain      (* smtplib.SMTP(SMTP_HOST, SMTP_PORT, ...) *)
| Ehlo           (* server.ehlo() *)
| StartTls       (* server.starttls(context=ctx) *)
| Login.         (* server.login(SMTP_USER, SMTP_PASS) *)

Inductive failure :=
| CallRaised (c : call)      (* the call raised *)
| UnsupportedMode.           (* the [RuntimeError] of line 322 *)

(** The calls made so far, oldest first, and the exception that ended the
    function, if any. *)
Abbreviation progress := (list call * option failure)%type.

(** One call: [returns k c] tells whether the [k]-th call of the function,
    which is [c], returns. *)
Definition perform (returns : nat → call → bool) (c : call) (made : list call) : progress :=
  (made ++ [c], if returns (length made) c then None else Some (CallRaised c)).

(** Sequencing: an exception ends the function. *)
Definition and_then (p : progress) (next : list call → progress) : progress :=
  match p.2 with
  | None => next p.1
  | Some _ => p
  end.

(** [smtp_client()]: the connection and handshake of the configured
    security mode, then the login.  A session is returned when the result
    carries no failure. *)
Definition smtp_client (c : config) (returns : nat → call → bool) : progress :=
  if String.eqb (SMTP_SECURE c) "ssl" then
    and_then (and_then (perform returns OpenSSL []) (perform returns Ehlo))
             (perform returns Login)
  else
    and_then
      (and_then (and_then (perform returns OpenPlain []) (perform returns Ehlo))
         (λ made,
            if String.eqb (SMTP_SECURE c) "starttls"
            then and_then (perform returns StartTls made) (perform returns Ehlo)
            else if String.eqb (SMTP_SECURE c) "none" then (made, None)
            else (made, Some UnsupportedMode)))
      (perform returns Login).

End Session.

(* ===================================================================== *)
(** ** [attach_file] *)
(* ===================================================================== *)

Module Attach.
Import Message.

Definition is_slash (c : Ascii.ascii) : bool := Ascii.nat_of_ascii c =? 47.

(** [s.split("/", 1)] when it yields two parts; [None] when [s] has no
    slash, in which case unpacking into [maintype, subtype] raises. *)
Fixpoint split_once (s : string) : option (string * string) :=
  match s with
  | EmptyString => None
  | String c rest =>
      if is_slash c then Some (EmptyString, rest)
      else match split_once rest with
           | Some (before, after) => Some (String c before, after)
           | None => None
           end
  end.

(** [os.path.basename(path)] on POSIX: what follows the last slash. *)
Fixpoint basename (path : string) : string :=
  match path with
  | EmptyString => EmptyString
  | String c rest =>
      if is_slash c then basename rest
      else match split_once rest with
           | Some _ => basename rest
           | None => path
           end
  end.

(** Lines 110-112: the content type used, given what
    [mimetypes.guess_type] returned. *)
Definition content_type (guess : option string * option string) : string :=
  match guess with
  | (Some ctype, None) => ctype
  | _ => "application/octet-stream"
  end.

(** [attach_file(msg, file_path)]: the part added to the message, given what
    [mimetypes.guess_type] returns for the path and what reading the file
    yields ([None] when opening or reading raises).  [None] when the function
    raises. *)
Definition attach_file (guess : option string * option string)
    (content : option string) (file_path : string) : option attachment :=
  match split_once (content_type guess) with
  | None => None
  | Some (maintype, subtype) =>
      match content with
      | None => None
      | Some data => Some (Attachment maintype subtype (basename file_path) data)
      end
  end.

End Attach.

Import Text Fields Templates Csv Message Dispatch Run.

(* ===================================================================== *)
(** ** Observations on runs *)
(* ===================================================================== *)

(** [val] is empty on line 85: the field is missing or blank. *)
Definition blank (r : row) (key : string) : Prop :=
  truthy (field_value r key) = false.

(** The four counters of a state. *)
Definition counters (st : state) : nat * nat * nat * nat :=
  (sent st, failed st, invalid_total st, skipped st).

(** What the line that settles a recipient does to the counters. *)
Definition tally (b : branch) (st : state) : state :=
  match b with
  | InvalidEmail => count_invalid (count_failed st)
  | Suppressed | DryRunSkipped => count_skipped st
  | MissingField | GaveUp => count_failed st
  | Delivered => count_sent st
  | Exhausted => st
  end.

(** Whether the recipient ends up in one of [sent], [failed], [skipped]. *)
Definition settled (b : branch) : bool :=
  match b with
  | Exhausted => false
  | _ => true
  end.

(** The attempt numbers of the calls [smtp.send_message] made for recipient
    [i], in the order they were made. *)
Definition attempt_of (i : nat) (e : event) : option nat :=
  match e with
  | SendMessage _ i' attempt _ => if decide (i' = i) then Some attempt else None
  | _ => None
  end.

Definition attempts_made (i : nat) (t : list event) : list nat :=
  omap (attempt_of i) t.

(** All calls [smtp.send_message] of a trace. *)
Definition is_send (e : event) : bool :=
  match e with
  | SendMessage _ _ _ _ => true
  | _ => false
  end.

(** The [except] clause that sets [is_temp] after attempt [attempt], and the
    value it gives it: lines 429, 439 and 443.  [None] when the attempt
    succeeds, and when it is disconnected and the reconnection succeeds
    (line 426 leaves the iteration before [is_temp] is looked at). *)
Definition classified (w : world) (i attempt : nat) : option bool :=
  match send_message w i attempt with
  | Accepted => None
  | ServerDisconnected => if reconnects w i attempt then None else Some true
  | ResponseException code => Some (is_temp_code code)
  | OtherException => Some true
  end.

(** Whether the [for] loop goes on to its next iteration, if it has one,
    after attempt [attempt]. *)
Definition goes_on (w : world) (c : config) (i attempt : nat) : bool :=
  match send_message w i attempt with
  | Accepted => false
  | ServerDisconnected => reconnects w i attempt || (attempt <? MAX_RETRIES c)
  | ResponseException code => (attempt <? MAX_RETRIES c) && is_temp_code code
  | OtherException => attempt <? MAX_RETRIES c
  end.



(** The calls made by the iterations [a, a+1, ..., a+n-1] of the retry loop
    are those of the first [k] of them; each of these but the last went on,
    and the last stopped the loop unless it was the loop's last. *)
Definition attempts_run (w : world) (c : config) (i a n : nat) (st : state)
    (res : branch * state) : Prop :=
  ∃ k, k ≤ n ∧ (0 < n → 0 < k) ∧
    attempts_made i (trace (res.2)) = attempts_made i (trace st) ++ seq a k ∧
    (∀ x, a ≤ x → S x < a + k → goes_on w c i x = true) ∧
    (k < n → goes_on w c i (a + k - 1) = false).

(** The sessions a trace opens and the sessions it closes, in order. *)
Definition opened (t : list event) : list nat :=
  omap (λ e, match e with Connect s => Some s | _ => None end) t.

Definition closed (t : list event) : list nat :=
  omap (λ e, match e with Close s => Some s | _ => None end) t.

(** Inside the [with] block: the sessions opened so far are numbered
    [0 .. sessions - 1], and none has been closed. *)
Definition sessions_tracked (st : state) : Prop :=
  opened (trace st) = seq 0 (sessions st) ∧ closed (trace st) = [] ∧ 1 ≤ sessions st.

(** The durations of the calls [time.sleep] of a trace, in order. *)
Definition slept (t : list event) : list Q :=
  omap (λ e, match e with Sleep q => Some q | _ => None end) t.

(** The delay slept after attempt [attempt] of recipient [i] fails and is
    retried. *)
Definition backoff (w : world) (i attempt : nat) : Q :=
  sleep_time attempt (backoff_uniform w i attempt).









(* ===================================================================== *)
(** ** Sample runs *)
(* ===================================================================== *)

Module Sample.

(** A complete configuration, three attempts, sending for real. *)
Definition live : config :=
  Config "smtp.example.org" 587 "starttls" "mailer" "secret"
         "Mailer" "mailer@example.org" "mailer@example.org"
         "Hello ${name}" None 60 3 false "" "" false.



(** A world in which every address is accepted as it stands, every send
    ends as [send] says, every reconnection ends as [again] says, and
    every jitter drawn is a tenth of a second. *)
Definition world_of (send : nat → nat → send_result) (again : bool) : world :=
  World (λ _ addr, Some addr) send (λ _ _, again)
        (λ _ _, 1 # 10) (λ _, 1 # 10)
        (λ _, "<1@mailer.example.org>") (λ _, "Tue, 03 Nov 2026 10:00:00 +0000")
        (λ _, None).

Definition always_disconnected : world := world_of (λ _ _, ServerDisconnected) true.
Definition always_busy : world := world_of (λ _ _, ResponseException 451) true.
Definition mailbox_unknown : world := world_of (λ _ _, ResponseException 550) true.
Definition drops_once : world :=
  world_of (λ _ attempt, if attempt =? 1 then ServerDisconnected else Accepted) true.
Definition all_accepted : world := world_of (λ _ _, Accepted) true.

Definition job_of (c : config) (supp : gset string) : job :=
  Job c (SUBJECT_TMPL c) "<p>Dear ${name},</p>" "Dear ${name}," {[ "name" ]} supp.

Definition ann : row := {[ "email" := "Ann@Example.org"; "name" := "Ann" ]}.

Definition note : message :=
  build_message live "<1@mailer.example.org>" "Tue, 03 Nov 2026 10:00:00 +0000"
    (λ _, None) ann "Hello ${name}" "<p>Dear ${name},</p>" "Dear ${name},".



Definition healthy : network := Network (λ _, true) (λ _, true) true true true.

End Sample.

(* ===================================================================== *)
(** ** Observations on templates, sessions and traces *)
(* ===================================================================== *)

(** Every character of [s] satisfies [p]. *)
Fixpoint all_chars (p : Ascii.ascii → bool) (s : string) : bool :=
  match s with
  | EmptyString => true
  | String c rest => p c && all_chars p rest
  end.

(** A placeholder name: a letter or an underscore, then letters, digits and
    underscores. *)
Definition is_identifier (s : string) : bool :=
  match s with
  | EmptyString => false
  | String c rest => id_start c && all_chars id_char rest
  end.

(** No dollar sign in [s]. *)
Definition dollar_free (s : string) : bool := all_chars (λ c, negb (is_dollar c)) s.

(** While a braced name is being read, what has been read is an
    identifier. *)
Definition reading_identifier (st : scan) : Prop :=
  match st with
  | Braced acc => is_identifier (String.rev acc) = true
  | _ => True
  end.

(** The calls of a complete [smtp_client()] in each supported security
    mode. *)
Definition handshake (c : config) : option (list Session.call) :=
  if String.eqb (SMTP_SECURE c) "ssl"
  then Some [Session.OpenSSL; Session.Ehlo; Session.Login]
  else if String.eqb (SMTP_SECURE c) "starttls"
  then Some [Session.OpenPlain; Session.Ehlo; Session.StartTls; Session.Ehlo; Session.Login]
  else if String.eqb (SMTP_SECURE c) "none"
  then Some [Session.OpenPlain; Session.Ehlo; Session.Login]
  else None.

Global Instance branch_eq_dec : EqDecision branch.
Proof. solve_decision. Defined.


(** The calls [smtp.send_message] of a trace: recipient and attempt. *)
Definition sends (t : list event) : list (nat * nat) :=
  omap (λ e, match e with SendMessage _ i attempt _ => Some (i, attempt) | _ => None end) t.

(** Recipient [i] tried [k] times, then recipient [i + 1] and so on, [ks]
    giving the number of attempts of each. *)
Fixpoint schedule (i : nat) (ks : list nat) : list (nat * nat) :=
  match ks with
  | [] => []
  | k :: ks => ((λ attempt, (i, attempt)) <$> seq 1 k) ++ schedule (S i) ks
  end.

(** The session [smtp] is bound to after the events of [t], [cur] being the
    one before them. *)
Fixpoint current (cur : option nat) (t : list event) : option nat :=
  match t with
  | [] => cur
  | Connect s :: t => current (Some s) t
  | _ :: t => current cur t
  end.

(** Every send of [t] goes over the session opened last before it. *)
Fixpoint routed (cur : option nat) (t : list event) : Prop :=
  match t with
  | [] => True
  | Connect s :: t => routed (Some s) t
  | SendMessage s _ _ _ :: t => cur = Some s ∧ routed cur t
  | _ :: t => routed cur t
  end.

(** Inside the [with] block: the sends so far were well routed, and [smtp]
    is the session opened last. *)
Definition well_routed (st : state) : Prop :=
  routed None (trace st) ∧ current None (trace st) = Some (smtp st).

(** What settling recipient [i] on branch [b] says of the number [k] of
    sends made for it: none on the lines before the send; the last one
    accepted for a delivery; the last one failed for good, or failed on the
    last attempt, when the loop gives up; all of them used, the last one
    disconnected and reconnected, when the loop runs out. *)
Definition ends_after (w : world) (c : config) (i : nat) (b : branch) (k : nat) : Prop :=
  match b with
  | InvalidEmail | Suppressed | MissingField | DryRunSkipped => k = 0
  | Delivered => 1 ≤ k ∧ send_message w i k = Accepted
  | GaveUp =>
      1 ≤ k ∧ ∃ t, classified w i k = Some t ∧ (t = false ∨ k = MAX_RETRIES c)
  | Exhausted =>
      k = MAX_RETRIES c ∧ send_message w i k = ServerDisconnected ∧
      reconnects w i k = true
  end.



(* ===================================================================== *)
(** ** The primitives on examples *)
(* ===================================================================== *)

Example strip_demo : strip "  Ann Lee  " = "Ann Lee".
Proof. reflexivity. Qed.

Example lower_demo : lower "Ann@Example.COM" = "ann@example.com".
Proof. reflexivity. Qed.

Example ensure_demo :
  let o := ensure_required_fields {[ "email" := "a@b.c" ]} {[ "name" ]} 2 5 in
  ok o = true ∧ row_after o !! "name" = Some "there" ∧
  warnings o = ["[2/5] Missing 'name', using fallback 'there'."].
Proof. vm_compute. auto. Qed.

Example findall_demo :
  findall "Hi ${name} of ${company}, $name ${9x} ${a$${b_1}" = ["name"; "company"; "b_1"].
Proof. reflexivity. Qed.

Example substitute_demo :
  safe_substitute "Hi ${name} $name; $$5 ${who} $who ${x $" {[ "name" := "Ann" ]}
  = "Hi Ann Ann; $5 ${who} $who ${x $".
Proof. vm_compute. reflexivity. Qed.

Example load_demo :
  load_recipients [[" Email "; "Name"]; ["a@b.c"; " Ann "]; []; [""; " "]; ["d@e.f"]]
  = [ {[ "email" := "a@b.c"; "name" := "Ann" ]};
      {[ "email" := "d@e.f"; "name" := "" ]} ].
Proof. vm_compute. reflexivity. Qed.

(* ===================================================================== *)
(** ** Field completion *)
(* ===================================================================== *)

Section EnsureKeys.
Context (fallbacks : gmap string string) (i total : nat).

Lemma blank_insert_ne r key k v : key ≠ k → blank (<[key := v]> r) k ↔ blank r k.
Proof. intros Hne. unfold blank, field_value. by rewrite lookup_insert_ne. Qed.

(** A key the loop does not visit keeps its value. *)
Lemma ensure_keys_untouched keys : ∀ r logged k,
  k ∉ keys → row_after (ensure_keys fallbacks i total keys r logged) !! k = r !! k.
Proof.
  induction keys as [|key rest IH]; intros r logged k Hk; simpl; [done|].
  apply not_elem_of_cons in Hk as [Hne Hrest].
  destruct (truthy (field_value r key)); [by apply IH|].
  destruct (fallbacks !! key) as [fb|]; [|done].
  rewrite IH by done. by rewrite lookup_insert_ne.
Qed.

(** Warnings are only ever added. *)
Lemma ensure_keys_warnings keys : ∀ r logged,
  logged `prefix_of` warnings (ensure_keys fallbacks i total keys r logged).
Proof.
  induction keys as [|key rest IH]; intros r logged; simpl; [done|].
  destruct (truthy (field_value r key)); [by apply IH|].
  destruct (fallbacks !! key) as [fb|]; [|done].
  etrans; [|apply IH]. by apply prefix_app_r.
Qed.

(** When every blank key visited has a fallback, the call succeeds, fills
    exactly the blank keys, and warns about each of them. *)
Lemma ensure_keys_success keys : NoDup keys → ∀ r logged,
  (∀ k, k ∈ keys → blank r k → is_Some (fallbacks !! k)) →
  let o := ensure_keys fallbacks i total keys r logged in
  ok o = true ∧ reason o = "" ∧
  ∀ k, k ∈ keys →
    (blank r k → ∃ fb, fallbacks !! k = Some fb ∧ row_after o !! k = Some fb
                       ∧ fallback_warning i total k fb ∈ warnings o) ∧
    (¬ blank r k → row_after o !! k = r !! k).
Proof.
  induction 1 as [|key rest Hnotin Hnd IH]; intros r logged Hfb; simpl.
  { split_and!; [done..|]. intros k Hk. by apply elem_of_nil in Hk. }
  destruct (truthy (field_value r key)) eqn:Hval.
  - destruct (IH r logged) as (Hok & Hre & Hkeys).
    { intros k Hk. apply Hfb. by right. }
    split_and!; [done..|]. intros k [->|Hk]%elem_of_cons; [|by apply Hkeys].
    split; [unfold blank; congruence|]. intros _. by apply ensure_keys_untouched.
  - destruct (Hfb key) as [fb Hlook]; [by left|done|]. rewrite Hlook.
    destruct (IH (<[key := fb]> r) (logged ++ [fallback_warning i total key fb]))
      as (Hok & Hre & Hkeys).
    { intros k Hk Hb. apply Hfb; [by right|]. apply blank_insert_ne in Hb; [done|].
      intros ->. done. }
    split_and!; [done..|]. intros k [->|Hk]%elem_of_cons.
    + split; [|intros Hnb; by destruct Hnb].
      intros _. exists fb. split_and!; [done| |].
      * rewrite ensure_keys_untouched by done. apply lookup_insert_eq.
      * eapply elem_of_prefix; [|apply ensure_keys_warnings].
        apply elem_of_app. right. by left.
    + assert (key ≠ k) as Hne by (intros ->; done).
      destruct (Hkeys k Hk) as [Hb Hnb]. split.
      * intros Hbl. apply Hb. by apply blank_insert_ne.
      * intros Hbl. rewrite Hnb; [by rewrite lookup_insert_ne|].
        by rewrite blank_insert_ne.
Qed.

End EnsureKeys.

Lemma required_spec used col :
  col ∈ required used ↔ col = "email" ∨ (col ∈ used ∧ (col = "name" ∨ col = "company")).
Proof.
  unfold required.
  rewrite elem_of_union, elem_of_intersection, elem_of_union, !elem_of_singleton. done.
Qed.

Lemma loop_keys_spec used k :
  k ∈ loop_keys used ↔ k ∈ used ∧ (k = "name" ∨ k = "company").
Proof.
  unfold loop_keys.
  rewrite elem_of_elements, elem_of_difference, required_spec, elem_of_singleton.
  split; [intros [[?|?] ?]; done|]. intros [Hu [-> | ->]]; split; auto; discriminate.
Qed.

Lemma loop_keys_NoDup used : NoDup (loop_keys used).
Proof. unfold loop_keys. apply NoDup_elements. Qed.

(** [FALLBACKS] has an entry for every key the loop can visit. *)
Lemma FALLBACKS_cover used keys k :
  keys ≡ₚ loop_keys used → k ∈ keys → is_Some (FALLBACKS !! k).
Proof.
  intros Hp Hk. rewrite Hp in Hk. apply loop_keys_spec in Hk as [_ [-> | ->]];
    vm_compute; eauto.
Qed.

Lemma ensure_required_fields_ok r used i total :
  ok (ensure_required_fields r used i total) = true.
Proof.
  unfold ensure_required_fields, ensure_required_fields_with.
  apply ensure_keys_success; [apply loop_keys_NoDup|].
  intros k Hk _. by eapply FALLBACKS_cover.
Qed.



(** The test the specification proposes: with templates that use only
    [name], a record without [company] passes; a record without [name] fails
    when the table has no entry for [name], and passes, filled in, when it
    has one. *)
Example required_field_gating :
  ok (ensure_required_fields_with ∅ {[ "email" := "a@b.c"; "name" := "Ann" ]} {[ "name" ]} 1 1)
    = true ∧
  reason (ensure_required_fields_with ∅ {[ "email" := "a@b.c" ]} {[ "name" ]} 3 7)
    = "[3/7] Missing required field 'name'. Skipping." ∧
  row_after (ensure_required_fields {[ "email" := "a@b.c" ]} {[ "name" ]} 3 7) !! "name"
    = Some "there".
Proof. by vm_compute. Qed.

(* ===================================================================== *)
(** ** Counters *)
(* ===================================================================== *)

(** Case analysis on every test a goal still branches on. *)
Ltac split_tests :=
  repeat match goal with
         | |- context [if ?b then _ else _] => destruct b; simpl
         end.

Lemma MAX_RETRIES_pos c : 1 ≤ MAX_RETRIES c.
Proof. unfold MAX_RETRIES. lia. Qed.

Lemma counters_eq st st' :
  counters st = counters st' →
  sent st = sent st' ∧ failed st = failed st' ∧
  invalid_total st = invalid_total st' ∧ skipped st = skipped st'.
Proof. unfold counters. by intros [= -> -> -> ->]. Qed.

Lemma counters_tally b st st' :
  counters st = counters st' → counters (tally b st) = counters (tally b st').
Proof. unfold counters. intros [= ? ? ? ?]. destruct b; simpl; congruence. Qed.

Lemma tally_sum b st :
  sent (tally b st) + failed (tally b st) + skipped (tally b st)
  = sent st + failed st + skipped st + (if settled b then 1 else 0).
Proof. destruct b; simpl; lia. Qed.

Lemma tally_invalid b st :
  invalid_total (tally b st) + failed st ≤ failed (tally b st) + invalid_total st.
Proof. destruct b; simpl; lia. Qed.

(** The retry loop moves the counters as the line it ends on says. *)
Lemma retry_counters w c i msg atts : ∀ st,
  counters (retry w c i msg atts st).2 = counters (tally (retry w c i msg atts st).1 st).
Proof.
  induction atts as [|a rest IH]; intros st; simpl; [done|].
  destruct (DRY_RUN c); [done|].
  unfold after_failure.
  destruct (send_message w i a) as [| |code|]; simpl; [done|..];
    split_tests; try done; rewrite IH; by apply counters_tally.
Qed.

Lemma retry_branch w c i msg atts : ∀ st,
  (retry w c i msg atts st).1 ≠ MissingField.
Proof.
  induction atts as [|a rest IH]; intros st; simpl; [done|].
  destruct (DRY_RUN c); [done|].
  unfold after_failure.
  destruct (send_message w i a) as [| |code|]; simpl; [done|..];
    split_tests; try done; apply IH.
Qed.

Lemma send_step_counters w j total i r st :
  counters (send_step w j total i r st).2 = counters (tally (send_step w j total i r st).1 st)
  ∧ (send_step w j total i r st).1 ≠ MissingField.
Proof.
  unfold send_step.
  set (msg := build_message _ _ _ _ _ _ _ _).
  pose proof (retry_counters w (cfg j) i msg (attempts (cfg j)) st) as Hc.
  pose proof (retry_branch w (cfg j) i msg (attempts (cfg j)) st) as Hb.
  destruct (retry _ _ _ _ _ _) as [b st']. simpl in *.
  split; [|done]. by destruct (i <? total).
Qed.

(** Field completion never stops a recipient. *)
Lemma complete_step_send w j total i r st :
  complete_step w j total i r st
  = send_step w j total i (row_after (ensure_required_fields r (used_keys j) i total)) st.
Proof. unfold complete_step. by rewrite ensure_required_fields_ok. Qed.

Lemma process_recipient_counters w j total i r st :
  counters (process_recipient w j total i r st).2
  = counters (tally (process_recipient w j total i r st).1 st)
  ∧ (process_recipient w j total i r st).1 ≠ MissingField.
Proof.
  unfold process_recipient.
  destruct (normalize_email _ _ _) as [n|]; [|done].
  destruct (truthy n); [|done].
  case_bool_decide; [done|].
  rewrite complete_step_send. apply send_step_counters.
Qed.

(** One branch per record; the three terminal counters grow by the number
    of records that were [settled]; [invalid_total] never grows faster than
    [failed]. *)
Lemma process_from_accounting w j total rows : ∀ i st,
  let res := process_from w j total i rows st in
  length (res.1) = length rows ∧
  (MissingField ∉ res.1) ∧
  sent (res.2) + failed (res.2) + skipped (res.2)
    = sent st + failed st + skipped st + length (filter (λ b, settled b = true) (res.1)) ∧
  invalid_total (res.2) + failed st ≤ failed (res.2) + invalid_total st.
Proof.
  induction rows as [|r rest IH]; intros i st; simpl.
  { split_and!; [done|apply not_elem_of_nil|lia..]. }
  destruct (process_recipient_counters w j total i r st) as [Hc Hb].
  destruct (process_recipient w j total i r st) as [b st1]. simpl in *.
  specialize (IH (S i) st1). destruct (process_from w j total (S i) rest st1) as [bs st2].
  simpl in *. destruct IH as (Hlen & Hmiss & Hsum & Hinv).
  apply counters_eq in Hc as (Hs & Hf & Hi & Hk).
  pose proof (tally_sum b st). pose proof (tally_invalid b st).
  split_and!.
  - by rewrite Hlen.
  - apply not_elem_of_cons. done.
  - destruct (settled b) eqn:Hb'.
    + rewrite filter_cons_True by done. simpl. lia.
    + rewrite filter_cons_False by congruence. lia.
  - lia.
Qed.


(** C10. Under the built-in table [FALLBACKS], field completion succeeds for
    every record, every set of used keys and every order in which the
    required keys are visited, with an empty reason; no recipient is ever
    settled on the missing-field lines 398-401, for one recipient as for a
    whole run. *)
Theorem missing_field_unreachable (r : row) (used : gset string) (i total : nat)
    (keys : list string) :
  keys ≡ₚ loop_keys used →
  ok (ensure_keys FALLBACKS i total keys r []) = true ∧
  ok (ensure_required_fields r used i total) = true ∧
  reason (ensure_required_fields r used i total) = "" ∧
  (∀ w j st, (process_recipient w j total i r st).1 ≠ MissingField) ∧
  (∀ w j rows, MissingField ∉ (dispatch w j rows).1).
Proof.
  intros Hperm.
  assert (∀ keys', keys' ≡ₚ loop_keys used →
            ok (ensure_keys FALLBACKS i total keys' r []) = true ∧
            reason (ensure_keys FALLBACKS i total keys' r []) = "") as Hall.
  { intros keys' Hp.
    destruct (ensure_keys_success FALLBACKS i total keys') with (r := r) (logged := @nil string)
      as (Hok & Hre & _); [rewrite Hp; apply loop_keys_NoDup| |done].
    intros k Hk _. by eapply FALLBACKS_cover. }
  split_and!.
  - by apply Hall.
  - by apply (Hall (loop_keys used)).
  - by apply (Hall (loop_keys used)).
  - intros w j st. apply process_recipient_counters.
  - intros w j rows. unfold dispatch.
    pose proof (process_from_accounting w j (length rows) rows 1 initial) as (_ & Hm & _).
    by destruct (process_from _ _ _ _ _ _).
Qed.

Lemma missing_field_unreachable_witness :
  ok (ensure_required_fields ∅ {[ "name"; "company" ]} 1 1) = true.
Proof.
  apply (missing_field_unreachable ∅ {[ "name"; "company" ]} 1 1
           (loop_keys {[ "name"; "company" ]})). reflexivity.
Defined.

(** C1. The counters do not always partition the recipients.  With the
    default three attempts, one valid recipient, a server that drops every
    send and accepts every reconnection: the three iterations of the retry
    loop each end on the [continue] of line 426, the loop runs out, and the
    recipient is counted in none of [sent], [failed], [skipped]. *)
Theorem exhausted_recipient_is_not_counted :
  let res := dispatch Sample.always_disconnected (Sample.job_of Sample.live ∅) [Sample.ann] in
  (res.1) = [Exhausted] ∧
  attempts_made 1 (trace (res.2)) = [1; 2; 3] ∧
  opened (trace (res.2)) = [0; 1; 2; 3] ∧
  sent (res.2) = 0 ∧ failed (res.2) = 0 ∧ skipped (res.2) = 0 ∧
  sent (res.2) + failed (res.2) + skipped (res.2) ≠ length [Sample.ann].
Proof. vm_compute. split_and!; done. Qed.



(** The same address, first not suppressed and then suppressed. *)
Example suppression_precedence :
  (process_recipient Sample.all_accepted (Sample.job_of Sample.live ∅) 1 1
     Sample.ann initial).1 = Delivered ∧
  (process_recipient Sample.all_accepted
     (Sample.job_of Sample.live {[ "ann@example.org" ]}) 1 1 Sample.ann initial).1
  = Suppressed.
Proof. by vm_compute. Qed.

(* ===================================================================== *)
(** ** Dry run *)
(* ===================================================================== *)

Lemma retry_dry_run w c i msg st :
  DRY_RUN c = true → retry w c i msg (attempts c) st = (DryRunSkipped, count_skipped st).
Proof.
  intros Hdry. unfold attempts.
  destruct (MAX_RETRIES c) as [|m] eqn:Hm; [pose proof (MAX_RETRIES_pos c); lia|].
  simpl. by rewrite Hdry.
Qed.





(* ===================================================================== *)
(** ** The retry loop *)
(* ===================================================================== *)

Section Projections.
Context (i : nat).

Lemma attempts_made_emit e st :
  attempts_made i (trace (emit e st)) = attempts_made i (trace st) ++ attempts_made i [e].
Proof. unfold attempts_made. simpl. by rewrite omap_app. Qed.

Lemma attempts_made_connect st :
  attempts_made i (trace (connect st)) = attempts_made i (trace st).
Proof. unfold connect. rewrite attempts_made_emit. simpl. by rewrite app_nil_r. Qed.

Lemma attempts_made_send s a m st :
  attempts_made i (trace (emit (SendMessage s i a m) st)) = attempts_made i (trace st) ++ [a].
Proof. rewrite attempts_made_emit. unfold attempts_made. simpl. by rewrite decide_True. Qed.

Lemma attempts_made_sleep q st :
  attempts_made i (trace (emit (Sleep q) st)) = attempts_made i (trace st).
Proof. rewrite attempts_made_emit. simpl. by rewrite app_nil_r. Qed.
End Projections.





Section Retry.
Context (w : world) (c : config) (i : nat) (msg : message).





Lemma attempts_run_stop a n st b st' :
  goes_on w c i a = false →
  attempts_made i (trace st') = attempts_made i (trace st) ++ [a] →
  attempts_run w c i a (S n) st (b, st').
Proof.
  intros Hstop Hmade. exists 1. simpl. split_and!; [lia|lia|done|intros; lia|].
  intros _. by replace (a + 1 - 1) with a by lia.
Qed.

Lemma attempts_run_go a n st st1 res :
  goes_on w c i a = true →
  attempts_made i (trace st1) = attempts_made i (trace st) ++ [a] →
  attempts_run w c i (S a) n st1 res →
  attempts_run w c i a (S n) st res.
Proof.
  intros Hgo Hmade (k & Hle & Hpos & Hk & Hin & Hlast). exists (S k).
  split_and!; [lia|lia| | |].
  - rewrite Hk, Hmade, <- app_assoc. done.
  - intros x Hx Hlt. destruct (decide (x = a)) as [->|]; [done|]. apply Hin; lia.
  - intros Hlt. replace (a + S k - 1) with (S a + k - 1) by lia. apply Hlast. lia.
Qed.

(** The attempts the loop makes, by induction on the iterations left. *)
Lemma retry_attempts : DRY_RUN c = false → ∀ n a st,
  attempts_run w c i a n st (retry w c i msg (seq a n) st).
Proof.
  intros Hdry. induction n as [|n IH]; intros a st; simpl.
  { exists 0. simpl. rewrite app_nil_r. split_and!; [lia..|done|intros; lia|lia]. }
  rewrite Hdry. unfold after_failure.
  set (st1 := emit (SendMessage (smtp st) i a msg) st).
  assert (attempts_made i (trace st1) = attempts_made i (trace st) ++ [a]) as Hst1
    by apply attempts_made_send.
  destruct (send_message w i a) as [| |code|] eqn:Hsend.
  - apply attempts_run_stop; [|done]. unfold goes_on. by rewrite Hsend.
  - destruct (reconnects w i a) eqn:Hre.
    + eapply attempts_run_go; [| |apply IH].
      * unfold goes_on. by rewrite Hsend, Hre.
      * by rewrite attempts_made_connect.
    + rewrite andb_true_r. destruct (a <? MAX_RETRIES c) eqn:Hlt.
      * eapply attempts_run_go; [| |apply IH].
        -- unfold goes_on. by rewrite Hsend, Hre, Hlt.
        -- by rewrite attempts_made_sleep.
      * apply attempts_run_stop; [|done]. unfold goes_on. by rewrite Hsend, Hre, Hlt.
  - destruct ((a <? MAX_RETRIES c) && is_temp_code code) eqn:Hlt.
    + eapply attempts_run_go; [| |apply IH].
      * unfold goes_on. by rewrite Hsend.
      * by rewrite attempts_made_sleep.
    + apply attempts_run_stop; [|done]. unfold goes_on. by rewrite Hsend.
  - rewrite andb_true_r. destruct (a <? MAX_RETRIES c) eqn:Hlt.
    + eapply attempts_run_go; [| |apply IH].
      * unfold goes_on. by rewrite Hsend.
      * by rewrite attempts_made_sleep.
    + apply attempts_run_stop; [|done]. unfold goes_on. by rewrite Hsend.
Qed.





End Retry.



(** A permanent rejection is tried once, not [MAX_RETRIES] times. *)
Example permanent_is_not_retried :
  let res := retry Sample.mailbox_unknown Sample.live 1 Sample.note (attempts Sample.live)
               initial in
  (res.1) = GaveUp ∧ attempts_made 1 (trace (res.2)) = [1] ∧ failed (res.2) = 1.
Proof. by vm_compute. Qed.

(* ===================================================================== *)
(** ** Sessions *)
(* ===================================================================== *)

Lemma tracked_emit e st :
  (∀ s, e ≠ Connect s) → (∀ s, e ≠ Close s) →
  sessions_tracked st → sessions_tracked (emit e st).
Proof.
  intros Hc Hx (Ho & Hcl & Hpos). unfold sessions_tracked, opened, closed. simpl.
  rewrite !omap_app. fold (opened (trace st)) (closed (trace st)). rewrite Ho, Hcl.
  destruct e; simpl; rewrite ?app_nil_r; try done.
  - by destruct (Hc session).
  - by destruct (Hx session).
Qed.

Lemma tracked_connect st : sessions_tracked st → sessions_tracked (connect st).
Proof.
  intros (Ho & Hcl & Hpos). unfold sessions_tracked, opened, closed, connect. simpl.
  rewrite !omap_app. fold (opened (trace st)) (closed (trace st)). rewrite Ho, Hcl.
  simpl. split_and!; [|done|lia].
  change (0 :: seq 1 (sessions st)) with (seq 0 (S (sessions st))). by rewrite seq_S.
Qed.

Lemma retry_tracked w c i msg atts : ∀ st,
  sessions_tracked st → sessions_tracked (retry w c i msg atts st).2.
Proof.
  induction atts as [|a rest IH]; intros st Hst; simpl; [done|].
  destruct (DRY_RUN c); [done|].
  assert (sessions_tracked (emit (SendMessage (smtp st) i a msg) st)) as Hst1
    by (by apply tracked_emit).
  unfold after_failure.
  destruct (send_message w i a) as [| |code|]; simpl; [done|..];
    split_tests; try done; apply IH; try (by apply tracked_connect); by apply tracked_emit.
Qed.

Lemma process_recipient_tracked w j total i r st :
  sessions_tracked st → sessions_tracked (process_recipient w j total i r st).2.
Proof.
  intros Hst. unfold process_recipient.
  destruct (normalize_email _ _ _) as [n|]; [|done].
  destruct (truthy n); [|done].
  case_bool_decide; [done|].
  rewrite complete_step_send. unfold send_step.
  set (msg := build_message _ _ _ _ _ _ _ _).
  pose proof (retry_tracked w (cfg j) i msg (attempts (cfg j)) st Hst) as Hr.
  destruct (retry _ _ _ _ _ _) as [b st']. simpl in *.
  destruct (i <? total); [|done]. by apply tracked_emit.
Qed.

Lemma process_from_tracked w j total rows : ∀ i st,
  sessions_tracked st → sessions_tracked (process_from w j total i rows st).2.
Proof.
  induction rows as [|r rest IH]; intros i st Hst; simpl; [done|].
  pose proof (process_recipient_tracked w j total i r st Hst) as H1.
  destruct (process_recipient w j total i r st) as [b st1].
  specialize (IH (S i) st1 H1).
  by destruct (process_from w j total (S i) rest st1) as [bs st2].
Qed.

(** What does hold of every run: the only session closed is the first,
    once; every session a reconnection opened stays open. *)
Lemma dispatch_sessions w j rows :
  let st := (dispatch w j rows).2 in
  opened (trace st) = seq 0 (sessions st) ∧ closed (trace st) = [0] ∧ 1 ≤ sessions st.
Proof.
  unfold dispatch.
  assert (sessions_tracked initial) as Hi by (split_and!; [done..|simpl; lia]).
  pose proof (process_from_tracked w j (length rows) rows 1 initial Hi) as (Ho & Hc & Hpos).
  destruct (process_from _ _ _ _ _ _) as [bs st]. simpl in *.
  unfold opened, closed in *. rewrite !omap_app. rewrite Ho, Hc. simpl.
  by rewrite app_nil_r.
Qed.

(** C3. A session opened by a reconnection is not closed.  One recipient,
    whose first send is dropped by the server and whose second send, after
    line 425 has opened a new session, is accepted: the run opens sessions 0
    and 1, the message goes out on session 1, and the exit of the [with]
    statement closes session 0 only. *)
Theorem reconnected_session_is_never_closed :
  let res := dispatch Sample.drops_once (Sample.job_of Sample.live ∅) [Sample.ann] in
  (res.1) = [Delivered] ∧
  opened (trace (res.2)) = [0; 1] ∧
  closed (trace (res.2)) = [0] ∧
  attempt_of 1 <$> filter (λ e, is_send e = true) (trace (res.2)) = [Some 1; Some 2] ∧
  1 ∈ opened (trace (res.2)) ∧ 1 ∉ closed (trace (res.2)).
Proof.
  cbv zeta.
  assert (opened (trace (dispatch Sample.drops_once (Sample.job_of Sample.live ∅)
                           [Sample.ann]).2) = [0; 1]) as Ho by (by vm_compute).
  assert (closed (trace (dispatch Sample.drops_once (Sample.job_of Sample.live ∅)
                           [Sample.ann]).2) = [0]) as Hc by (by vm_compute).
  rewrite Ho, Hc. split_and!; [by vm_compute|done|done|by vm_compute| |].
  - rewrite !elem_of_cons. auto.
  - rewrite !elem_of_cons, elem_of_nil. intros [?|[]]. done.
Qed.

(** Without a reconnection the one session is closed once. *)
Example single_session_is_closed_once :
  let res := dispatch Sample.all_accepted (Sample.job_of Sample.live ∅) [Sample.ann] in
  opened (trace (res.2)) = [0] ∧ closed (trace (res.2)) = [0].
Proof. by vm_compute. Qed.

(* ===================================================================== *)
(** ** Back-off delays *)
(* ===================================================================== *)















(** The test the specification proposes: three attempts, a send that always
    fails temporarily.  The two delays slept are 1.1 and 2.1 seconds. *)
Example retry_bound :
  let res := retry Sample.always_busy Sample.live 1 Sample.note (attempts Sample.live)
               initial in
  attempts_made 1 (trace (res.2)) = [1; 2; 3] ∧
  Forall2 Qeq (slept (trace (res.2))) [11 # 10; 21 # 10]%Q.
Proof.
  cbv zeta. split; [by vm_compute|].
  assert (slept (trace (retry Sample.always_busy Sample.live 1 Sample.note
                          (attempts Sample.live) initial).2)
          = [backoff Sample.always_busy 1 1; backoff Sample.always_busy 1 2]) as ->
    by (by vm_compute).
  repeat constructor; by vm_compute.
Qed.

(* ===================================================================== *)
(** ** Early exits of [main] *)
(* ===================================================================== *)

Lemma filter_absent_nil (norm cols : list string) :
  filter (λ c, c ∉ norm) cols = [] ↔ ∀ c, c ∈ cols → c ∈ norm.
Proof.
  induction cols as [|c cols IH]; simpl.
  { split; [intros _ c Hc; by apply elem_of_nil in Hc|done]. }
  rewrite filter_cons. destruct (decide (c ∉ norm)) as [Hn|Hn].
  - split; [done|]. intros Hall. destruct Hn. apply Hall. by left.
  - rewrite IH. apply dec_stable in Hn. split.
    + intros Hall x [->|Hx]%elem_of_cons; auto.
    + intros Hall x Hx. apply Hall. by right.
Qed.







(* ===================================================================== *)
(** ** Rendering *)
(* ===================================================================== *)


Example note_rendered :
  header "Subject" Sample.note = Some "Hello Ann" ∧
  header "To" Sample.note = Some "Ann <Ann@Example.org>" ∧
  header "From" Sample.note = Some "Mailer <mailer@example.org>" ∧
  header "List-Unsubscribe" Sample.note = None ∧
  text_body Sample.note = "Dear Ann," ∧
  html_body Sample.note = "<p>Dear Ann,</p>".
Proof. by vm_compute. Qed.

(* ===================================================================== *)
(** ** Placeholders and substitution *)
(* ===================================================================== *)

Lemma append_cons (x : Ascii.ascii) (a b : string) : String x a +:+ b = String x (a +:+ b).
Proof. reflexivity. Qed.

Lemma append_nil_l (a : string) : "" +:+ a = a.
Proof. reflexivity. Qed.


Lemma append_nil_r (a : string) : a +:+ "" = a.
Proof. induction a as [|x a IH]; [done|]. rewrite append_cons. by rewrite IH. Qed.

Lemma rev_app_append (acc s t : string) :
  String.rev_app acc s +:+ t = String.rev_app acc (s +:+ t).
Proof. revert s. induction acc as [|x acc IH]; intros s; simpl; [done|]. apply IH. Qed.

Lemma rev_push (c : Ascii.ascii) (acc k : string) :
  String.rev (String c acc) +:+ k = String.rev acc +:+ String c k.
Proof. unfold String.rev. simpl. by rewrite !rev_app_append. Qed.

Lemma id_start_char c : id_start c = true → id_char c = true.
Proof. unfold id_char. by intros ->. Qed.

Lemma id_char_not_dollar c : id_char c = true → is_dollar c = false.
Proof.
  unfold id_char, id_start, is_letter, is_digit, is_dollar.
  destruct (code c =? 36) eqn:H; [|done]. apply Nat.eqb_eq in H as ->. done.
Qed.

Lemma id_char_not_rbrace c : id_char c = true → is_rbrace c = false.
Proof.
  unfold id_char, id_start, is_letter, is_digit, is_rbrace.
  destruct (code c =? 125) eqn:H; [|done]. apply Nat.eqb_eq in H as ->. done.
Qed.

Lemma id_start_not_lbrace c : id_start c = true → is_lbrace c = false.
Proof.
  unfold id_start, is_letter, is_lbrace.
  destruct (code c =? 123) eqn:H; [|done]. apply Nat.eqb_eq in H as ->. done.
Qed.

(** *** Scanning an identifier *)

Lemma findall_braced (k rest acc : string) (close : Ascii.ascii) :
  all_chars id_char k = true → id_char close = false → is_rbrace close = true →
  findall_from (Braced acc) (k +:+ String close rest)
  = (String.rev acc +:+ k) :: findall_from Plain rest.
Proof.
  revert acc. induction k as [|c k IH]; intros acc Hk Hclose Hbrace.
  - rewrite append_nil_l, append_nil_r. simpl. by rewrite Hclose, Hbrace.
  - simpl in Hk. apply andb_true_iff in Hk as [Hc Hk]. rewrite append_cons. simpl.
    rewrite Hc, IH by done. by rewrite rev_push.
Qed.

Lemma substitute_braced (m : gmap string string) (k rest acc : string)
    (close : Ascii.ascii) :
  all_chars id_char k = true → id_char close = false → is_rbrace close = true →
  substitute_from m (Braced acc) (k +:+ String close rest)
  = default ("${" +:+ (String.rev acc +:+ k) +:+ "}") (m !! (String.rev acc +:+ k))
    +:+ substitute_from m Plain rest.
Proof.
  revert acc. induction k as [|c k IH]; intros acc Hk Hclose Hbrace.
  - rewrite append_nil_l, append_nil_r. simpl. by rewrite Hclose, Hbrace.
  - simpl in Hk. apply andb_true_iff in Hk as [Hc Hk]. rewrite append_cons. simpl.
    rewrite Hc. rewrite append_nil_l, IH by done. by rewrite rev_push.
Qed.

(** the unbraced form: the identifier ends at the first character that is not
    one of its own, or at the end of the template *)
Lemma substitute_named_end (m : gmap string string) (k acc : string) :
  all_chars id_char k = true →
  substitute_from m (Named acc) k
  = default ("$" +:+ (String.rev acc +:+ k)) (m !! (String.rev acc +:+ k)).
Proof.
  revert acc. induction k as [|c k IH]; intros acc Hk.
  - simpl. unfold subst_named. by rewrite append_nil_r.
  - simpl in Hk. apply andb_true_iff in Hk as [Hc Hk]. simpl.
    rewrite Hc. rewrite append_nil_l, IH by done. by rewrite rev_push.
Qed.

Lemma findall_named (k acc : string) (st : scan) :
  all_chars id_char k = true → st = Plain ∨ (∃ a, st = Named a) →
  findall_from st k = [].
Proof.
  revert st. induction k as [|c k IH]; intros st Hk Hst; [done|].
  simpl in Hk. apply andb_true_iff in Hk as [Hc Hk].
  assert (resume_find c = Plain) as Hr.
  { unfold resume_find. by rewrite id_char_not_dollar. }
  destruct Hst as [->|[a ->]]; simpl; rewrite Hr; apply IH; auto.
Qed.

Lemma all_chars_append p (a b : string) :
  all_chars p (a +:+ b) = all_chars p a && all_chars p b.
Proof.
  induction a as [|c a IH]; [done|]. rewrite append_cons. simpl.
  by rewrite IH, andb_assoc.
Qed.

Lemma all_chars_impl (p q : Ascii.ascii → bool) (s : string) :
  (∀ c, p c = true → q c = true) → all_chars p s = true → all_chars q s = true.
Proof.
  intros Hpq. induction s as [|c s IH]; [done|]. simpl.
  intros [Hc Hs]%andb_true_iff. by rewrite (Hpq c Hc), IH.
Qed.

Lemma identifier_dollar_free k : all_chars id_char k = true → dollar_free k = true.
Proof.
  apply all_chars_impl. intros c Hc. by rewrite id_char_not_dollar.
Qed.

Lemma dollar_free_prefix (m : gmap string string) (pre s : string) :
  dollar_free pre = true →
  findall_from Plain (pre +:+ s) = findall_from Plain s ∧
  substitute_from m Plain (pre +:+ s) = pre +:+ substitute_from m Plain s.
Proof.
  induction pre as [|c pre IH]; intros Hfree; [done|].
  unfold dollar_free in Hfree. simpl in Hfree.
  apply andb_true_iff in Hfree as [Hc Hfree]. apply negb_true_iff in Hc.
  destruct (IH Hfree) as [Hf Hs]. rewrite !append_cons. simpl.
  unfold resume_find, plain_step. rewrite Hc. rewrite append_cons, append_nil_l.
  by rewrite Hf, Hs.
Qed.

Lemma dollar_free_inert (m : gmap string string) (s : string) :
  dollar_free s = true →
  findall_from Plain s = [] ∧ substitute_from m Plain s = s.
Proof.
  intros Hfree. destruct (dollar_free_prefix m s "" Hfree) as [Hf Hs].
  rewrite append_nil_r in Hf, Hs. rewrite Hf, Hs. simpl. by rewrite append_nil_r.
Qed.

(** X1. Text without a dollar sign has no placeholder and is rendered as it
    stands. *)
Theorem dollar_free_template (m : gmap string string) (s : string) :
  dollar_free s = true → findall s = [] ∧ safe_substitute s m = s.
Proof.
  intros Hfree. destruct (dollar_free_prefix m s "" Hfree) as [Hf Hs].
  rewrite append_nil_r in Hf, Hs. unfold findall, safe_substitute.
  rewrite Hf, Hs. simpl. by rewrite append_nil_r.
Qed.

Lemma dollar_free_template_witness :
  findall "Dear customer," = [] ∧
  safe_substitute "Dear customer," Sample.ann = "Dear customer,".
Proof. apply (dollar_free_template Sample.ann "Dear customer,"). reflexivity. Defined.

Lemma identifier_inv k :
  is_identifier k = true →
  ∃ c body, k = String c body ∧ id_start c = true ∧ all_chars id_char body = true.
Proof.
  destruct k as [|c body]; [done|]. simpl. intros [? ?]%andb_true_iff. eauto.
Qed.

(** X2. A braced placeholder after plain text is found by [extract_placeholders]
    and replaced by [safe_substitute], by the value of its key when the
    record has one and by itself otherwise. *)
Theorem braced_placeholder (m : gmap string string) (pre k rest : string) :
  dollar_free pre = true → is_identifier k = true →
  findall (pre +:+ "${" +:+ k +:+ "}" +:+ rest) = k :: findall rest ∧
  safe_substitute (pre +:+ "${" +:+ k +:+ "}" +:+ rest) m
  = pre +:+ default ("${" +:+ k +:+ "}") (m !! k) +:+ safe_substitute rest m.
Proof.
  intros Hfree (c & body & -> & Hc & Hbody)%identifier_inv.
  unfold findall, safe_substitute.
  destruct (dollar_free_prefix m pre ("${" +:+ String c body +:+ "}" +:+ rest) Hfree)
    as [-> ->].
  rewrite !append_cons, !append_nil_l. simpl. rewrite Hc. simpl.
  rewrite findall_braced, substitute_braced by done.
  rewrite !append_nil_l. done.
Qed.

Lemma braced_placeholder_witness :
  findall "Hello ${name}!" = ["name"] ∧
  safe_substitute "Hello ${name}!" Sample.ann = "Hello Ann!".
Proof. apply (braced_placeholder Sample.ann "Hello " "name" "!"); reflexivity. Defined.

(** X3. An unbraced placeholder at the end of a template is replaced by
    [safe_substitute] but is not among the keys [extract_placeholders]
    returns. *)
Theorem unbraced_placeholder (m : gmap string string) (pre k : string) :
  dollar_free pre = true → is_identifier k = true →
  findall (pre +:+ "$" +:+ k) = [] ∧
  safe_substitute (pre +:+ "$" +:+ k) m = pre +:+ default ("$" +:+ k) (m !! k).
Proof.
  intros Hfree (c & body & -> & Hc & Hbody)%identifier_inv.
  unfold findall, safe_substitute.
  destruct (dollar_free_prefix m pre ("$" +:+ String c body) Hfree) as [-> ->].
  rewrite !append_cons, !append_nil_l. simpl. rewrite Hc.
  rewrite (id_start_not_lbrace c Hc).
  assert (is_dollar c = false) as Hd by (by apply id_char_not_dollar, id_start_char).
  rewrite Hd. simpl. unfold resume_find. rewrite Hd.
  rewrite (findall_named body "" Plain) by auto.
  rewrite substitute_named_end by done. by rewrite !append_nil_l.
Qed.

Lemma unbraced_placeholder_witness :
  findall "Hello $name" = [] ∧ safe_substitute "Hello $name" Sample.ann = "Hello Ann".
Proof. apply (unbraced_placeholder Sample.ann "Hello " "name"); reflexivity. Defined.

(** X4. A placeholder escaped with a second dollar sign is rendered literally,
    yet [extract_placeholders] returns its key. *)
Theorem escaped_placeholder (m : gmap string string) (pre k rest : string) :
  dollar_free pre = true → is_identifier k = true → dollar_free rest = true →
  findall (pre +:+ "$${" +:+ k +:+ "}" +:+ rest) = [k] ∧
  safe_substitute (pre +:+ "$${" +:+ k +:+ "}" +:+ rest) m
  = pre +:+ "${" +:+ k +:+ "}" +:+ rest.
Proof.
  intros Hfree Hid Hrest.
  pose proof Hid as (c & body & -> & Hc & Hbody)%identifier_inv.
  unfold findall, safe_substitute.
  destruct (dollar_free_prefix m pre ("$${" +:+ String c body +:+ "}" +:+ rest) Hfree)
    as [-> ->].
  split.
  - rewrite !append_cons, !append_nil_l. simpl. rewrite Hc.
    rewrite findall_braced by done.
    destruct (dollar_free_inert m rest Hrest) as [Hf _]. by rewrite Hf.
  - assert (dollar_free ("{" +:+ String c body +:+ "}" +:+ rest) = true) as Hlit.
    { unfold dollar_free. rewrite !all_chars_append.
      fold (dollar_free (String c body)) (dollar_free rest).
      rewrite Hrest, (identifier_dollar_free (String c body)); [done|].
      simpl. by rewrite id_start_char. }
    destruct (dollar_free_inert m _ Hlit) as [_ Hs].
    change (substitute_from m Plain ("$${" +:+ String c body +:+ "}" +:+ rest))
      with ("$" +:+ substitute_from m Plain ("{" +:+ String c body +:+ "}" +:+ rest)).
    by rewrite Hs.
Qed.

Lemma escaped_placeholder_witness :
  findall "Write $${name} here" = ["name"] ∧
  safe_substitute "Write $${name} here" Sample.ann = "Write ${name} here".
Proof.
  apply (escaped_placeholder Sample.ann "Write " "name" " here"); reflexivity.
Defined.

Lemma identifier_append a b :
  is_identifier a = true → all_chars id_char b = true → is_identifier (a +:+ b) = true.
Proof.
  destruct a as [|c a]; [done|]. rewrite append_cons. simpl.
  intros [Hc Ha]%andb_true_iff Hb. by rewrite Hc, all_chars_append, Ha, Hb.
Qed.

Lemma identifier_push c acc :
  is_identifier (String.rev acc) = true → id_char c = true →
  is_identifier (String.rev (String c acc)) = true.
Proof.
  intros Hacc Hc. rewrite <- (append_nil_r (String.rev (String c acc))), rev_push.
  apply identifier_append; [done|]. simpl. by rewrite Hc.
Qed.

Lemma findall_from_identifiers (s : string) : ∀ st k,
  reading_identifier st → k ∈ findall_from st s → is_identifier k = true.
Proof.
  induction s as [|c s IH]; intros st k Hst Hk; simpl in Hk.
  { by apply elem_of_nil in Hk. }
  assert (reading_identifier (resume_find c)) as Hres.
  { unfold resume_find. by destruct (is_dollar c). }
  destruct st as [| |acc| |acc]; simpl in Hk.
  - by eapply IH.
  - eapply IH; [|done]. by destruct (is_lbrace c).
  - by eapply IH.
  - eapply IH; [|done]. destruct (id_start c) eqn:Hc; [|done]. simpl.
    unfold String.rev. simpl. by rewrite Hc.
  - destruct (id_char c) eqn:Hc.
    + eapply IH; [|done]. by apply identifier_push.
    + destruct (is_rbrace c).
      * apply elem_of_cons in Hk as [->|Hk]; [exact Hst|].
        eapply (IH Plain); [done|exact Hk].
      * by eapply IH.
Qed.

(** X5. Every key [extract_placeholders] returns is an identifier. *)
Theorem extract_placeholders_identifiers (tmpls : list string) (k : string) :
  k ∈ extract_placeholders tmpls → is_identifier k = true.
Proof.
  unfold extract_placeholders. rewrite elem_of_list_to_set.
  intros (l & Hl & Hk)%list_elem_of_In%in_concat. apply list_elem_of_In in Hl, Hk.
  apply list_elem_of_fmap in Hl as (tmpl & -> & _).
  by eapply (findall_from_identifiers tmpl Plain).
Qed.

Lemma extract_placeholders_identifiers_witness : is_identifier "company" = true.
Proof.
  apply (extract_placeholders_identifiers ["Hello ${name}"; "From ${company}"]).
  vm_compute. reflexivity.
Defined.

(* ===================================================================== *)
(** ** The recipient table *)
(* ===================================================================== *)

(** *** [strip] and [lower] *)

Lemma lstrip_head s :
  lstrip s = "" ∨ ∃ c t, lstrip s = String c t ∧ is_space c = false.
Proof.
  induction s as [|c s IH]; simpl; [by left|].
  destruct (is_space c) eqn:Hc; [done|]. right. eauto.
Qed.

Lemma rstrip_cons_keep c s : is_space c = false → ∃ t, rstrip (String c s) = String c t.
Proof. intros Hc. simpl. rewrite Hc. destruct (rstrip s); eauto. Qed.

Lemma rstrip_idemp s : rstrip (rstrip s) = rstrip s.
Proof.
  induction s as [|c s IH]; simpl; [done|].
  destruct (rstrip s) as [|k kept] eqn:Hr.
  - destruct (is_space c) eqn:Hc; simpl; [done|]. by rewrite Hc.
  - simpl. simpl in IH. by rewrite IH.
Qed.

Lemma strip_idemp s : strip (strip s) = strip s.
Proof.
  unfold strip. destruct (lstrip_head s) as [->|(c & t & -> & Hc)]; [done|].
  destruct (rstrip_cons_keep c t Hc) as [t' Ht]. rewrite Ht.
  cbn [lstrip]. rewrite Hc, <- Ht. apply rstrip_idemp.
Qed.

Lemma rstrip_blank s : all_chars is_space s = true → rstrip s = "".
Proof.
  induction s as [|c s IH]; simpl; [done|].
  intros [Hc Hs]%andb_true_iff. by rewrite IH, Hc.
Qed.

Lemma rstrip_empty s : rstrip s = "" → all_chars is_space s = true.
Proof.
  induction s as [|c s IH]; simpl; [done|].
  destruct (rstrip s) eqn:Hr; [|done]. destruct (is_space c); [|done].
  intros _. by apply IH.
Qed.

Lemma lstrip_blank s : all_chars is_space s = true → lstrip s = "".
Proof.
  induction s as [|c s IH]; simpl; [done|].
  intros [Hc Hs]%andb_true_iff. rewrite Hc. by apply IH.
Qed.

(** [s.strip()] is empty exactly when [s] consists of white space. *)
Lemma strip_empty s : strip s = "" ↔ all_chars is_space s = true.
Proof.
  unfold strip. split.
  - induction s as [|c s IH]; [done|]. cbn [lstrip all_chars].
    destruct (is_space c) eqn:Hc; [done|].
    intros H. destruct (rstrip_cons_keep c s Hc) as [t Ht]. congruence.
  - intros H. by rewrite lstrip_blank.
Qed.

Lemma truthy_false s : truthy s = false ↔ s = "".
Proof. by destruct s. Qed.

(** *** Records read from the table *)

Lemma dict_set_keys k v d k' :
  k' ∈ (dict_set k v d).*1 ↔ k' = k ∨ k' ∈ d.*1.
Proof.
  induction d as [|[k0 v0] d IH]; simpl.
  - rewrite elem_of_cons, elem_of_nil. tauto.
  - destruct (String.eqb k k0) eqn:Heq; simpl.
    + apply String.eqb_eq in Heq as <-. rewrite !elem_of_cons. tauto.
    + rewrite !elem_of_cons, IH. tauto.
Qed.

Lemma dict_set_values k v d k' v' :
  (k', v') ∈ dict_set k v d → (k', v') = (k, v) ∨ (k', v') ∈ d.
Proof.
  induction d as [|[k0 v0] d IH]; simpl.
  - rewrite elem_of_cons, elem_of_nil. tauto.
  - destruct (String.eqb k k0) eqn:Heq; simpl; rewrite !elem_of_cons; [tauto|].
    intros [?|?]; [tauto|]. destruct IH; auto.
Qed.

Lemma dict_fold_keys items : ∀ init k,
  k ∈ (foldl (λ d kv, dict_set kv.1 kv.2 d) init items).*1 ↔ k ∈ init.*1 ∨ k ∈ items.*1.
Proof.
  induction items as [|[k0 v0] items IH]; intros init k; simpl.
  - rewrite elem_of_nil. tauto.
  - rewrite IH, dict_set_keys, elem_of_cons. tauto.
Qed.

Lemma dict_fold_values items : ∀ init k v,
  (k, v) ∈ foldl (λ d kv, dict_set kv.1 kv.2 d) init items → (k, v) ∈ init ∨ (k, v) ∈ items.
Proof.
  induction items as [|[k0 v0] items IH]; intros init k v; simpl.
  - tauto.
  - intros [H|H]%IH; [|right; by right].
    apply dict_set_values in H as [->|H]; [right; by left|by left].
Qed.

Lemma zip_row_keys fieldnames : ∀ cells, (zip_row fieldnames cells).*1 = fieldnames.
Proof.
  induction fieldnames as [|k ks IH]; intros cells; simpl; [done|].
  destruct cells; simpl; by rewrite IH.
Qed.

Lemma zip_row_values fieldnames : ∀ cells k v,
  (k, v) ∈ zip_row fieldnames cells → v = "" ∨ v ∈ cells.
Proof.
  induction fieldnames as [|k0 ks IH]; intros cells k v; simpl.
  - by intros ?%elem_of_nil.
  - destruct cells as [|c cells]; intros [[= -> ->]|H]%elem_of_cons.
    + by left.
    + by apply IH in H.
    + right. by left.
    + apply IH in H as [?|?]; [by left|right; by right].
Qed.

(** The keys of the [dict] [DictReader] hands out are the field names. *)
Lemma dict_row_keys fieldnames cells k :
  k ∈ (dict_row fieldnames cells).*1 ↔ k ∈ fieldnames.
Proof.
  unfold dict_row. rewrite dict_fold_keys, zip_row_keys. simpl.
  rewrite elem_of_nil. tauto.
Qed.

Lemma dict_row_values fieldnames cells k v :
  (k, v) ∈ dict_row fieldnames cells → v = "" ∨ v ∈ cells.
Proof.
  unfold dict_row. intros [H|H]%dict_fold_values; [by apply elem_of_nil in H|].
  by eapply zip_row_values.
Qed.

Lemma normalise_fold_keys items : ∀ (init : row) x,
  is_Some (foldl (λ out kv, <[lower (strip kv.1) := strip kv.2]> out) init items !! x)
  ↔ is_Some (init !! x) ∨ ∃ k, k ∈ items.*1 ∧ x = lower (strip k).
Proof.
  induction items as [|[k0 v0] items IH]; intros init x; simpl.
  - split; [by left|]. intros [?|(k & Hk & _)]; [done|]. by apply elem_of_nil in Hk.
  - rewrite IH. rewrite lookup_insert_is_Some'. split.
    + intros [[<-|?]|(k & Hk & ->)].
      * right. exists k0. split; [by left|done].
      * by left.
      * right. exists k. split; [by right|done].
    + intros [?|(k & [->|Hk]%elem_of_cons & ->)].
      * left. by right.
      * left. by left.
      * right. eauto.
Qed.

Lemma normalise_fold_values items : ∀ (init : row) x v,
  foldl (λ out kv, <[lower (strip kv.1) := strip kv.2]> out) init items !! x = Some v →
  init !! x = Some v ∨ ∃ kv, kv ∈ items ∧ v = strip kv.2.
Proof.
  induction items as [|[k0 v0] items IH]; intros init x v; simpl; [by left|].
  intros [H|(kv & Hkv & ->)]%IH.
  - simpl in H. destruct (decide (lower (strip k0) = x)) as [<-|Hne].
    + rewrite lookup_insert_eq in H. injection H as <-. right. exists (k0, v0).
      split; [by left|done].
    + rewrite lookup_insert_ne in H by done. by left.
  - right. exists kv. split; [by right|done].
Qed.

Lemma normalise_row_keys items x :
  is_Some (normalise_row items !! x) ↔ ∃ k, k ∈ items.*1 ∧ x = lower (strip k).
Proof.
  unfold normalise_row. rewrite normalise_fold_keys, lookup_empty.
  split; [intros [[? [=]]|?]; done|by right].
Qed.

Lemma normalise_row_values items x v :
  normalise_row items !! x = Some v → ∃ kv, kv ∈ items ∧ v = strip kv.2.
Proof.
  unfold normalise_row. intros [H|?]%normalise_fold_values; [|done].
  by rewrite lookup_empty in H.
Qed.

Lemma load_recipients_row lines r :
  r ∈ load_recipients lines →
  ∃ fieldnames body cells,
    lines = fieldnames :: body ∧ cells ∈ body ∧ cells ≠ [] ∧
    r = normalise_row (dict_row fieldnames cells) ∧ any_value r = true.
Proof.
  unfold load_recipients. destruct lines as [|fieldnames body]; [by intros ?%elem_of_nil|].
  intros [Hany Hr]%list_elem_of_filter.
  apply list_elem_of_fmap in Hr as (cells & -> & Hc).
  apply list_elem_of_filter in Hc as [Hne Hc]. eauto 10.
Qed.

Lemma any_value_true (out : row) :
  any_value out = true ↔ ∃ k v, out !! k = Some v ∧ v ≠ "".
Proof.
  unfold any_value. rewrite existsb_exists. split.
  - intros ([k v] & Hin & Hv). exists k, v. split.
    + by apply elem_of_map_to_list, list_elem_of_In.
    + simpl in Hv. by destruct v.
  - intros (k & v & Hk & Hv). exists (k, v). split.
    + by apply list_elem_of_In, elem_of_map_to_list.
    + simpl. by destruct v.
Qed.

Lemma loaded_rows_keys (lines : table) (r : row) (k : string) :
  r ∈ load_recipients lines →
  is_Some (r !! k) ↔ ∃ h, h ∈ hd [] lines ∧ k = lower (strip h).
Proof.
  intros (fieldnames & body & cells & -> & _ & _ & -> & _)%load_recipients_row.
  simpl. rewrite normalise_row_keys. split.
  - intros (h & Hh & ->). exists h. split; [|done]. by apply dict_row_keys in Hh.
  - intros (h & Hh & ->). exists h. split; [|done]. by apply dict_row_keys.
Qed.

(** X6. Every record [load_recipients] yields has exactly the normalised field
    names of the header line as keys, has trimmed values, one of them not
    empty, and comes from a line of the table with a cell that is not
    blank. *)
Theorem loaded_rows (lines : table) (r : row) :
  r ∈ load_recipients lines →
  (∀ k, is_Some (r !! k) ↔ ∃ h, h ∈ hd [] lines ∧ k = lower (strip h)) ∧
  (∀ k v, r !! k = Some v → strip v = v) ∧
  (∃ k v, r !! k = Some v ∧ v ≠ "") ∧
  (∃ cells cell, cells ∈ tail lines ∧ cell ∈ cells ∧ strip cell ≠ "").
Proof.
  intros Hr. split; [intros k; by apply loaded_rows_keys|]. revert Hr.
  intros (fieldnames & body & cells & -> & Hcells & Hne & -> & Hany)%load_recipients_row.
  simpl. split_and!.
  - intros k v (kv & _ & ->)%normalise_row_values. apply strip_idemp.
  - by apply any_value_true.
  - apply any_value_true in Hany as (k & v & Hk & Hv).
    apply normalise_row_values in Hk as ([k0 v0] & Hkv & ->). simpl in Hv.
    apply dict_row_values in Hkv as [->|Hin]; [done|].
    exists cells, v0. done.
Qed.

Lemma loaded_rows_witness :
  let r : row := {[ "email" := "ann@example.org"; "name" := "Ann" ]} in
  (∀ k, is_Some (r !! k) ↔ ∃ h, h ∈ ["Email"; " Name "] ∧ k = lower (strip h)) ∧
  (∀ k v, r !! k = Some v → strip v = v).
Proof.
  intros r.
  destruct (loaded_rows [["Email"; " Name "]; ["ann@example.org "; " Ann"]; []; [""; " "]] r)
    as (Hk & Hv & _).
  { vm_compute. left. }
  split; [exact Hk|exact Hv].
Defined.

(** X7. A table that passes [csv_preflight] for some columns yields only records
    that have every one of these columns as a key. *)
Theorem preflight_guarantees_columns (lines : table) (cols : list string)
    (r : row) (col : string) :
  csv_preflight (Some lines) cols = true →
  r ∈ load_recipients lines → col ∈ cols → is_Some (r !! col).
Proof.
  intros Hpre Hr Hcol.
  apply (loaded_rows_keys lines r col Hr).
  unfold csv_preflight in Hpre.
  destruct lines as [|[|h hs] rest]; [done..|]. simpl.
  destruct (filter _ cols) as [|m ms] eqn:Hf; [|done].
  pose proof (proj1 (filter_absent_nil _ cols) Hf col Hcol) as Hin.
  apply list_elem_of_fmap in Hin as (h0 & -> & Hh0). eauto.
Qed.

Lemma preflight_guarantees_columns_witness :
  is_Some (({[ "email" := "ann@example.org"; "name" := "" ]} : row) !! "name").
Proof.
  apply (preflight_guarantees_columns [["Email"; " Name "]; ["ann@example.org"]]
           ["email"; "name"]).
  - reflexivity.
  - vm_compute. left.
  - vm_compute. right. left.
Defined.

(** *** Cells and columns *)

Lemma dict_set_fresh k v d : k ∉ d.*1 → dict_set k v d = d ++ [(k, v)].
Proof.
  induction d as [|[k0 v0] d IH]; simpl; [done|].
  rewrite not_elem_of_cons. intros [Hne Hd].
  destruct (String.eqb k k0) eqn:Heq; [by apply String.eqb_eq in Heq|].
  by rewrite IH.
Qed.

Lemma dict_fold_fresh items : ∀ init,
  NoDup (init.*1 ++ items.*1) →
  foldl (λ d kv, dict_set kv.1 kv.2 d) init items = init ++ items.
Proof.
  induction items as [|[k v] items IH]; intros init Hnd; simpl.
  { by rewrite app_nil_r. }
  simpl in Hnd. apply NoDup_app in Hnd as (Hinit & Hdisj & Hitems).
  apply NoDup_cons in Hitems as [Hk Hitems].
  rewrite dict_set_fresh.
  - rewrite IH; [by rewrite <- app_assoc|].
    rewrite fmap_app. simpl. rewrite <- app_assoc. simpl.
    apply NoDup_app. split_and!; [done| |by apply NoDup_cons].
    intros x Hx. apply Hdisj. done.
  - intros Hin. apply (Hdisj k Hin). by left.
Qed.

Lemma dict_row_fresh fieldnames cells :
  NoDup fieldnames → dict_row fieldnames cells = zip_row fieldnames cells.
Proof.
  intros Hnd. unfold dict_row. rewrite dict_fold_fresh; [done|].
  simpl. by rewrite zip_row_keys.
Qed.

Lemma zip_row_lookup fieldnames : ∀ cells p h,
  fieldnames !! p = Some h →
  zip_row fieldnames cells !! p = Some (h, default "" (cells !! p)).
Proof.
  induction fieldnames as [|k ks IH]; intros cells p h Hp; [done|].
  destruct p as [|p]; simpl in *.
  - injection Hp as ->. by destruct cells.
  - destruct cells as [|c cells]; simpl; rewrite (IH _ p h Hp); [by destruct p|done].
Qed.

Lemma normalise_fold_other items : ∀ (init : row) x,
  x ∉ (λ k, lower (strip k)) <$> items.*1 →
  foldl (λ out kv, <[lower (strip kv.1) := strip kv.2]> out) init items !! x = init !! x.
Proof.
  induction items as [|[k0 v0] items IH]; intros init x Hx; simpl; [done|].
  simpl in Hx. apply not_elem_of_cons in Hx as [Hne Hx].
  rewrite IH by done. simpl. by rewrite lookup_insert_ne.
Qed.

Lemma normalise_fold_lookup items : ∀ (init : row) k v,
  NoDup ((λ k, lower (strip k)) <$> items.*1) → (k, v) ∈ items →
  foldl (λ out kv, <[lower (strip kv.1) := strip kv.2]> out) init items !! lower (strip k)
  = Some (strip v).
Proof.
  induction items as [|[k0 v0] items IH]; intros init k v Hnd Hin; simpl.
  { by apply elem_of_nil in Hin. }
  simpl in Hnd. apply NoDup_cons in Hnd as [Hk0 Hnd].
  apply elem_of_cons in Hin as [[= -> ->]|Hin].
  - rewrite normalise_fold_other by done. simpl. by rewrite lookup_insert_eq.
  - by apply IH.
Qed.

(** X8. When the header names are pairwise distinct once trimmed and
    lower-cased, every record [load_recipients] yields comes from a line of
    the table, and holds under each normalised header name the trimmed cell
    of that column, or the empty string when the line is too short. *)
Theorem cells_land_under_their_names (lines : table) (r : row) :
  NoDup ((λ h, lower (strip h)) <$> hd [] lines) →
  r ∈ load_recipients lines →
  ∃ cells, cells ∈ tail lines ∧ cells ≠ [] ∧
    ∀ p h, hd [] lines !! p = Some h →
      r !! lower (strip h) = Some (strip (default "" (cells !! p))).
Proof.
  intros Hnd (fieldnames & body & cells & -> & Hcells & Hne & -> & Hany)%load_recipients_row.
  simpl in *. exists cells. split_and!; [done..|].
  intros p h Hp. rewrite dict_row_fresh by (by eapply NoDup_fmap_1).
  unfold normalise_row. apply normalise_fold_lookup.
  - by rewrite zip_row_keys.
  - eapply list_elem_of_lookup_2. by apply zip_row_lookup.
Qed.

Lemma cells_land_under_their_names_witness :
  let r : row := {[ "email" := "ann@example.org"; "name" := "" ]} in
  ∃ cells, cells ∈ [["ann@example.org "]; []] ∧ cells ≠ [] ∧
    ∀ p h, ["Email"; " Name "] !! p = Some h →
      r !! lower (strip h) = Some (strip (default "" (cells !! p))).
Proof.
  intros r.
  apply (cells_land_under_their_names [["Email"; " Name "]; ["ann@example.org "]; []] r).
  - vm_compute. repeat constructor; rewrite ?elem_of_cons, ?elem_of_nil; intuition congruence.
  - vm_compute. left.
Defined.

(* ===================================================================== *)
(** ** Field completion under [FALLBACKS] *)
(* ===================================================================== *)

Lemma blank_spec (r : row) (k : string) :
  blank r k ↔ r !! k = None ∨ ∃ v, r !! k = Some v ∧ all_chars is_space v = true.
Proof.
  unfold blank, field_value, or_empty. rewrite truthy_false, strip_empty.
  destruct (r !! k) as [v|]; simpl.
  - split; [intros ?; right; eauto|]. intros [?|(v' & [= <-] & ?)]; done.
  - split; [by left|done].
Qed.

Lemma blank_dec (r : row) (k : string) : blank r k ∨ ¬ blank r k.
Proof. unfold blank. destruct (truthy (field_value r k)); auto. Qed.

Lemma ensure_required_fields_lookup (r : row) (used : gset string) (i total : nat) k :
  row_after (ensure_required_fields r used i total) !! k =
    if bool_decide (k ∈ loop_keys used) && negb (truthy (field_value r k))
    then FALLBACKS !! k else r !! k.
Proof.
  unfold ensure_required_fields, ensure_required_fields_with.
  destruct (ensure_keys_success FALLBACKS i total (loop_keys used) (loop_keys_NoDup used) r [])
    as (_ & _ & Hkeys).
  { intros k' Hk' _. by eapply FALLBACKS_cover. }
  case_bool_decide as Hk; simpl.
  - destruct (Hkeys k Hk) as [Hfill Hkeep]. unfold blank in *.
    destruct (truthy (field_value r k)) eqn:Hb; simpl.
    + apply Hkeep. congruence.
    + destruct (Hfill eq_refl) as (fb & -> & -> & _). done.
  - by apply ensure_keys_untouched.
Qed.

Lemma lookup_filled (r : row) (used : gset string) (i total : nat) k :
  k ∈ loop_keys used → blank r k →
  row_after (ensure_required_fields r used i total) !! k = FALLBACKS !! k.
Proof.
  intros Hk Hb. rewrite ensure_required_fields_lookup.
  unfold blank in Hb. by rewrite bool_decide_eq_true_2, Hb.
Qed.

Lemma lookup_kept (r : row) (used : gset string) (i total : nat) k :
  k ∉ loop_keys used ∨ ¬ blank r k →
  row_after (ensure_required_fields r used i total) !! k = r !! k.
Proof.
  intros Hk. rewrite ensure_required_fields_lookup. unfold blank in Hk.
  case_bool_decide; simpl; [|done].
  destruct (truthy (field_value r k)); [done|]. destruct Hk; done.
Qed.


(** X10. After field completion every required key other than [email] is
    present, and the name, when a template uses it, is not blank. *)
Theorem completion_leaves_no_gap (r : row) (used : gset string) (i total : nat) :
  let r' := row_after (ensure_required_fields r used i total) in
  (∀ k, k ∈ required used → k ≠ "email" → is_Some (r' !! k)) ∧
  ("name" ∈ used → ¬ blank r' "name").
Proof.
  intros r'. subst r'. split.
  - intros k Hk Hne.
    assert (k ∈ loop_keys used) as Hin.
    { unfold loop_keys. rewrite elem_of_elements, elem_of_difference, elem_of_singleton. done. }
    destruct (r !! k) as [v|] eqn:Hv.
    + destruct (blank_dec r k) as [Hb|Hb].
      * rewrite lookup_filled by done. by eapply FALLBACKS_cover.
      * rewrite lookup_kept by auto. by rewrite Hv.
    + rewrite lookup_filled; [by eapply FALLBACKS_cover|done|]. apply blank_spec. by left.
  - intros Hname Hblank.
    assert ("name" ∈ loop_keys used) as Hin by (apply loop_keys_spec; auto).
    destruct (blank_dec r "name") as [Hb|Hb].
    + apply blank_spec in Hblank. rewrite lookup_filled in Hblank by done.
      destruct Hblank as [H|(v & H & Hv)]; vm_compute in H; [done|].
      injection H as <-. done.
    + apply Hb. apply blank_spec. apply blank_spec in Hblank.
      by rewrite lookup_kept in Hblank by auto.
Qed.

(** X11. Completing a record a second time changes nothing. *)
Theorem completion_idempotent (r : row) (used : gset string) (i i' total total' : nat) :
  let r' := row_after (ensure_required_fields r used i total) in
  row_after (ensure_required_fields r' used i' total') = r'.
Proof.
  intros r'. apply map_eq. intros k.
  destruct (decide (k ∈ loop_keys used)) as [Hin|Hout]; [|apply lookup_kept; auto].
  destruct (blank_dec r' k) as [Hb'|Hb']; [|apply lookup_kept; auto].
  rewrite lookup_filled by done. subst r'.
  destruct (blank_dec r k) as [Hb|Hb]; [by rewrite lookup_filled|].
  exfalso. apply Hb. apply blank_spec. apply blank_spec in Hb'.
  by rewrite lookup_kept in Hb' by (by right).
Qed.

(* ===================================================================== *)
(** ** The SMTP preflight and the session *)
(* ===================================================================== *)

(** *** The SMTP preflight *)

Lemma truthy_true s : truthy s = true ↔ s ≠ "".
Proof. by destruct s. Qed.

Lemma config_complete_spec c :
  config_complete c = true ↔
  SMTP_HOST c ≠ "" ∧ SMTP_PORT c ≠ 0%Z ∧ SMTP_USER c ≠ "" ∧ SMTP_PASS c ≠ "" ∧
  FROM_EMAIL c ≠ "".
Proof.
  unfold config_complete.
  rewrite !andb_true_iff, negb_true_iff, Z.eqb_neq, !truthy_true. tauto.
Qed.

Lemma missing_settings_nil c : missing_settings c = [] ↔ config_complete c = true.
Proof.
  unfold missing_settings, config_complete.
  destruct (truthy (SMTP_HOST c)), (SMTP_PORT c =? 0)%Z, (truthy (SMTP_USER c)),
    (truthy (SMTP_PASS c)), (truthy (FROM_EMAIL c)); simpl; split; done.
Qed.

Lemma preflight_secure_mode (c : config) (n : network) :
  smtp_config_preflight c n = true →
  lower (SMTP_SECURE c) ∈ ["starttls"; "ssl"; "none"].
Proof.
  unfold smtp_config_preflight, preflight_errors, static_errors.
  case_bool_decide as Hsec; [done|].
  destruct (match missing_settings c with [] => [] | _ => _ end); [|done].
  destruct (if (1 <=? SMTP_PORT c)%Z && (SMTP_PORT c <=? 65535)%Z then [] else [InvalidPort]);
    done.
Qed.

(** X12. [smtp_config_preflight] passes exactly when the settings are complete,
    the port is in range, the security mode is one of the three supported,
    the sender and, if set, the reply address validate, the host resolves,
    the connection test passes and, when the deep check is enabled, the
    login works. *)
Theorem preflight_passes_iff (c : config) (n : network) :
  smtp_config_preflight c n = true ↔
    config_complete c = true ∧
    (1 ≤ SMTP_PORT c ≤ 65535)%Z ∧
    lower (SMTP_SECURE c) ∈ ["starttls"; "ssl"; "none"] ∧
    deliverable n (FROM_EMAIL c) = true ∧
    (REPLY_TO c = "" ∨ deliverable n (REPLY_TO c) = true) ∧
    resolves n (SMTP_HOST c) = true ∧
    reachable n = true ∧
    (SMTP_DEEP_CHECK c = true → login_works n = true).
Proof.
  unfold smtp_config_preflight, preflight_errors, static_errors.
  rewrite <- missing_settings_nil.
  destruct (missing_settings c) as [|m ms] eqn:Hmiss; simpl.
  2:{ split; [done|]. by intros [? _]. }
  apply missing_settings_nil, config_complete_spec in Hmiss as (Hhost & _ & _ & _ & Hfrom).
  apply truthy_true in Hhost, Hfrom. rewrite Hhost, Hfrom.
  destruct ((1 <=? SMTP_PORT c)%Z && (SMTP_PORT c <=? 65535)%Z) eqn:Hport; simpl.
  2:{ split; [done|]. intros (_ & Hp & _). apply andb_false_iff in Hport.
      rewrite Z.leb_gt, Z.leb_gt in Hport. lia. }
  apply andb_true_iff in Hport. rewrite !Z.leb_le in Hport.
  case_bool_decide as Hsec; simpl.
  2:{ split; [done|]. by intros (_ & _ & ? & _). }
  destruct (deliverable n (FROM_EMAIL c)) eqn:Hd; simpl.
  2:{ split; [done|]. by intros (_ & _ & _ & ? & _). }
  destruct (truthy (REPLY_TO c)) eqn:Hr; simpl.
  - destruct (deliverable n (REPLY_TO c)) eqn:Hdr; simpl.
    2:{ split; [done|]. intros (_ & _ & _ & _ & [He|?] & _); [|done].
        by rewrite He in Hr. }
    destruct (resolves n (SMTP_HOST c)); simpl.
    2:{ split; [done|]. by intros (_ & _ & _ & _ & _ & ? & _). }
    destruct (reachable n); simpl.
    2:{ split; [done|]. by intros (_ & _ & _ & _ & _ & _ & ? & _). }
    destruct (SMTP_DEEP_CHECK c), (login_works n); simpl; split; try done.
    + intros _. split_and!; first [done | lia | by left | by right].
    + intros (_ & _ & _ & _ & _ & _ & _ & H). by specialize (H eq_refl).
    + intros _. split_and!; first [done | lia | by left | by right].
    + intros _. split_and!; first [done | lia | by left | by right].
  - apply truthy_false in Hr.
    destruct (resolves n (SMTP_HOST c)); simpl.
    2:{ split; [done|]. by intros (_ & _ & _ & _ & _ & ? & _). }
    destruct (reachable n); simpl.
    2:{ split; [done|]. by intros (_ & _ & _ & _ & _ & _ & ? & _). }
    destruct (SMTP_DEEP_CHECK c), (login_works n); simpl; split; try done.
    + intros _. split_and!; first [done | lia | by left | by right].
    + intros (_ & _ & _ & _ & _ & _ & _ & H). by specialize (H eq_refl).
    + intros _. split_and!; first [done | lia | by left | by right].
    + intros _. split_and!; first [done | lia | by left | by right].
Qed.

(** *** Opening a session *)

(** X13. [smtp_client] returns a session only after the complete handshake of
    the configured mode, whose last call is the login; the login is never
    attempted before the calls that precede it in the handshake have
    returned, in particular not before [starttls] in that mode.  With an
    unsupported mode the function raises without attempting the login, after
    it has opened a plain connection. *)
Theorem smtp_client_handshake (c : config) (returns : nat → Session.call → bool) :
  let res := Session.smtp_client c returns in
  (res.2 = None → handshake c = Some (res.1)) ∧
  (Session.Login ∈ res.1 → handshake c = Some (res.1)) ∧
  (∀ calls, handshake c = Some calls → res.1 `prefix_of` calls ∧
            res.2 ≠ Some Session.UnsupportedMode) ∧
  (handshake c = None →
     (Session.Login ∉ res.1) ∧ res.2 ≠ None ∧
     (returns 0 Session.OpenPlain = true → returns 1 Session.Ehlo = true →
      res = ([Session.OpenPlain; Session.Ehlo], Some Session.UnsupportedMode))).
Proof.
  unfold Session.smtp_client, handshake, Session.and_then, Session.perform.
  destruct (String.eqb (SMTP_SECURE c) "ssl").
  { simpl. destruct (returns 0 Session.OpenSSL); simpl;
      [destruct (returns 1 Session.Ehlo); simpl;
         [destruct (returns 2 Session.Login); simpl|]|].
    all: split_and!; try done.
    all: try (intros Hin; repeat (apply elem_of_cons in Hin as [Hin|Hin]; [done|]);
              by apply elem_of_nil in Hin).
    all: intros calls [= <-]; split; [|done].
    all: by (eexists; simpl; reflexivity). }
  destruct (String.eqb (SMTP_SECURE c) "starttls").
  { simpl. destruct (returns 0 Session.OpenPlain); simpl;
      [destruct (returns 1 Session.Ehlo); simpl;
         [destruct (returns 2 Session.StartTls); simpl;
            [destruct (returns 3 Session.Ehlo); simpl;
               [destruct (returns 4 Session.Login); simpl|]|]|]|].
    all: split_and!; try done.
    all: try (intros Hin; repeat (apply elem_of_cons in Hin as [Hin|Hin]; [done|]);
              by apply elem_of_nil in Hin).
    all: intros calls [= <-]; split; [|done].
    all: by (eexists; simpl; reflexivity). }
  destruct (String.eqb (SMTP_SECURE c) "none").
  { simpl. destruct (returns 0 Session.OpenPlain); simpl;
      [destruct (returns 1 Session.Ehlo); simpl;
         [destruct (returns 2 Session.Login); simpl|]|].
    all: split_and!; try done.
    all: try (intros Hin; repeat (apply elem_of_cons in Hin as [Hin|Hin]; [done|]);
              by apply elem_of_nil in Hin).
    all: intros calls [= <-]; split; [|done].
    all: by (eexists; simpl; reflexivity). }
  simpl. destruct (returns 0 Session.OpenPlain); simpl;
    [destruct (returns 1 Session.Ehlo); simpl|].
  all: split_and!; try done.
  all: try (intros Hin; repeat (apply elem_of_cons in Hin as [Hin|Hin]; [done|]);
            by apply elem_of_nil in Hin).
  all: intros _; split_and!; try done.
  all: try (intros Hin; repeat (apply elem_of_cons in Hin as [Hin|Hin]; [done|]);
            by apply elem_of_nil in Hin).
Qed.

Lemma smtp_client_supported (c : config) (returns : nat → Session.call → bool) calls :
  handshake c = Some calls →
  (Session.smtp_client c returns).2 ≠ Some Session.UnsupportedMode.
Proof.
  unfold Session.smtp_client, handshake, Session.and_then, Session.perform.
  destruct (String.eqb (SMTP_SECURE c) "ssl").
  { intros _. simpl. destruct (returns 0 Session.OpenSSL); simpl; [|done].
    destruct (returns 1 Session.Ehlo); simpl; [|done].
    by destruct (returns 2 Session.Login). }
  destruct (String.eqb (SMTP_SECURE c) "starttls").
  { intros _. simpl. destruct (returns 0 Session.OpenPlain); simpl; [|done].
    destruct (returns 1 Session.Ehlo); simpl; [|done].
    destruct (returns 2 Session.StartTls); simpl; [|done].
    destruct (returns 3 Session.Ehlo); simpl; [|done].
    by destruct (returns 4 Session.Login). }
  destruct (String.eqb (SMTP_SECURE c) "none"); [|done].
  intros _. simpl. destruct (returns 0 Session.OpenPlain); simpl; [|done].
  destruct (returns 1 Session.Ehlo); simpl; [|done].
  by destruct (returns 2 Session.Login).
Qed.

(** X14. A configuration that passes the preflight, its security mode being in
    lower case as line 20 leaves it, is one [smtp_client] supports: the
    [RuntimeError] of line 322 cannot occur. *)
Theorem preflight_mode_supported (c : config) (n : network)
    (returns : nat → Session.call → bool) :
  smtp_config_preflight c n = true → lower (SMTP_SECURE c) = SMTP_SECURE c →
  (∃ calls, handshake c = Some calls) ∧
  (Session.smtp_client c returns).2 ≠ Some Session.UnsupportedMode.
Proof.
  intros Hsec%preflight_secure_mode Hlow. rewrite Hlow in Hsec.
  assert (∃ calls, handshake c = Some calls) as [calls Hcalls].
  { unfold handshake.
    repeat (apply elem_of_cons in Hsec as [->|Hsec]; [simpl; eauto|]).
    by apply elem_of_nil in Hsec. }
  split; [eauto|].
  by eapply smtp_client_supported.
Qed.

Lemma preflight_mode_supported_witness :
  (∃ calls, handshake Sample.live = Some calls) ∧
  (Session.smtp_client Sample.live (λ _ _, true)).2 ≠ Some Session.UnsupportedMode.
Proof.
  apply (preflight_mode_supported Sample.live Sample.healthy); reflexivity.
Defined.

(** *** Attachments *)

Lemma split_once_spec s before after :
  Attach.split_once s = Some (before, after) →
  s = before +:+ "/" +:+ after ∧ all_chars (λ c, negb (Attach.is_slash c)) before = true.
Proof.
  revert before. induction s as [|c s IH]; intros before; simpl; [done|].
  destruct (Attach.is_slash c) eqn:Hc.
  - intros [= <- <-]. split; [|done]. rewrite append_nil_l, append_cons, append_nil_l.
    f_equal. unfold Attach.is_slash in Hc. apply Nat.eqb_eq in Hc.
    rewrite <- (Ascii.ascii_nat_embedding c), Hc. done.
  - destruct (Attach.split_once s) as [[b a]|]; [|done].
    intros [= <- <-]. destruct (IH b eq_refl) as [-> Hb]. split.
    + by rewrite append_cons.
    + simpl. by rewrite Hc, Hb.
Qed.

Lemma split_once_none s :
  Attach.split_once s = None ↔ all_chars (λ c, negb (Attach.is_slash c)) s = true.
Proof.
  induction s as [|c s IH]; simpl; [done|].
  destruct (Attach.is_slash c); simpl; [done|].
  destruct (Attach.split_once s) as [[b a]|]; [|tauto].
  split; [done|]. intros H%IH. done.
Qed.

Lemma basename_spec path :
  all_chars (λ c, negb (Attach.is_slash c)) (Attach.basename path) = true ∧
  ∃ dir, path = dir +:+ Attach.basename path ∧
         (dir = "" ∨ ∃ d, dir = d +:+ "/").
Proof.
  induction path as [|c path (IHfree & dir & IHpath & IHdir)]; simpl.
  { split; [done|]. exists "". auto. }
  destruct (Attach.is_slash c) eqn:Hc.
  - split; [done|]. exists (String c dir). split.
    + by rewrite append_cons, <- IHpath.
    + right. destruct IHdir as [->|[d ->]].
      * exists "". rewrite append_nil_l. f_equal.
        unfold Attach.is_slash in Hc. apply Nat.eqb_eq in Hc.
        rewrite <- (Ascii.ascii_nat_embedding c), Hc. done.
      * exists (String c d). by rewrite append_cons.
  - destruct (Attach.split_once path) as [[b a]|] eqn:Hsplit.
    + split; [done|]. exists (String c dir). split.
      * by rewrite append_cons, <- IHpath.
      * right. destruct IHdir as [->|[d ->]].
        -- rewrite append_nil_l in IHpath. apply eq_sym in IHpath.
           assert (Attach.split_once path = None) as Hn.
           { apply split_once_none. by rewrite <- IHpath. }
           congruence.
        -- exists (String c d). by rewrite append_cons.
    + split.
      * simpl. rewrite Hc. simpl. by apply split_once_none.
      * exists "". auto.
Qed.

(** X15. What [attach_file] adds: the content type is the guessed one, or
    [application/octet-stream] when none is guessed or the file is encoded
    (compressed); its two parts joined by a slash give it back; the file name
    is what follows the last slash of the path; the data are those read.  The
    function raises exactly when the file cannot be read or the content type
    has no slash. *)
Theorem attach_file_part (guess : option string * option string)
    (content : option string) (path : string) :
  (∀ a, Attach.attach_file guess content path = Some a →
     maintype a +:+ "/" +:+ subtype a = Attach.content_type guess ∧
     all_chars (λ c, negb (Attach.is_slash c)) (maintype a) = true ∧
     all_chars (λ c, negb (Attach.is_slash c)) (filename a) = true ∧
     (∃ dir, path = dir +:+ filename a ∧ (dir = "" ∨ ∃ d, dir = d +:+ "/")) ∧
     content = Some (data a) ∧
     (guess.1 = None ∨ guess.2 ≠ None →
      maintype a = "application" ∧ subtype a = "octet-stream")) ∧
  (Attach.attach_file guess content path = None ↔
     content = None ∨
     all_chars (λ c, negb (Attach.is_slash c)) (Attach.content_type guess) = true).
Proof.
  unfold Attach.attach_file. split.
  - intros a.
    destruct (Attach.split_once (Attach.content_type guess)) as [[mt st]|] eqn:Hsplit; [|done].
    destruct content as [d|]; [|done]. intros [= <-]. simpl.
    destruct (split_once_spec _ _ _ Hsplit) as [Hct Hmt].
    destruct (basename_spec path) as [Hfree Hdir].
    split_and!; [done..|].
    intros Hguess.
    assert (Attach.content_type guess = "application/octet-stream") as Hoct.
    { destruct guess as [[t|] [e|]]; simpl in *; try done. by destruct Hguess. }
    rewrite Hoct in Hsplit. vm_compute in Hsplit. by injection Hsplit as <- <-.
  - destruct (Attach.split_once (Attach.content_type guess)) as [[mt st]|] eqn:Hsplit.
    + destruct content as [d|]; split; try done; [|by left].
      intros [?|Hfree]; [done|]. apply split_once_none in Hfree. congruence.
    + split; [|done]. intros _. right. by apply split_once_none.
Qed.

(* ===================================================================== *)
(** ** Messages *)
(* ===================================================================== *)

(** *** The headers of a message *)



(* ===================================================================== *)
(** ** Runs: counters, sends, sessions and sleeps *)
(* ===================================================================== *)

(** *** The counters, exactly *)




(** *** The sends of a run *)

Lemma sends_emit e st : sends (trace (emit e st)) = sends (trace st) ++ sends [e].
Proof. unfold sends. simpl. by rewrite omap_app. Qed.

Lemma sends_connect st : sends (trace (connect st)) = sends (trace st).
Proof. unfold connect. rewrite sends_emit. simpl. by rewrite app_nil_r. Qed.

Lemma sends_sleep q st : sends (trace (emit (Sleep q) st)) = sends (trace st).
Proof. rewrite sends_emit. simpl. by rewrite app_nil_r. Qed.

(** The retry loop of recipient [i] only sends for recipient [i]. *)
Lemma retry_sends w c i msg atts : ∀ st,
  ∃ made,
    attempts_made i (trace (retry w c i msg atts st).2) = attempts_made i (trace st) ++ made ∧
    sends (trace (retry w c i msg atts st).2)
      = sends (trace st) ++ ((λ attempt, (i, attempt)) <$> made).
Proof.
  induction atts as [|a rest IH]; intros st; simpl.
  { exists []. simpl. by rewrite !app_nil_r. }
  destruct (DRY_RUN c).
  { exists []. simpl. by rewrite !app_nil_r. }
  set (st1 := emit (SendMessage (smtp st) i a msg) st).
  assert (attempts_made i (trace st1) = attempts_made i (trace st) ++ [a]) as Hm1
    by apply attempts_made_send.
  assert (sends (trace st1) = sends (trace st) ++ [(i, a)]) as Hs1
    by (unfold st1; by rewrite sends_emit).
  assert (∀ st2, attempts_made i (trace st2) = attempts_made i (trace st1) →
                 sends (trace st2) = sends (trace st1) →
    ∃ made,
      attempts_made i (trace (retry w c i msg rest st2).2) = attempts_made i (trace st) ++ made ∧
      sends (trace (retry w c i msg rest st2).2)
        = sends (trace st) ++ ((λ attempt, (i, attempt)) <$> made)) as Hgo.
  { intros st2 Hm2 Hs2. destruct (IH st2) as (made & Hm & Hs). exists (a :: made).
    rewrite Hm, Hs, Hm2, Hs2, Hm1, Hs1, <- !app_assoc. done. }
  assert (∀ st2, attempts_made i (trace st2) = attempts_made i (trace st1) →
                 sends (trace st2) = sends (trace st1) →
    ∃ made,
      attempts_made i (trace st2) = attempts_made i (trace st) ++ made ∧
      sends (trace st2) = sends (trace st) ++ ((λ attempt, (i, attempt)) <$> made)) as Hstop.
  { intros st2 Hm2 Hs2. exists [a]. by rewrite Hm2, Hs2, Hm1, Hs1. }
  unfold after_failure.
  destruct (send_message w i a) as [| |code|]; [by apply (Hstop (count_sent st1))| | |].
  - destruct (reconnects w i a).
    + apply Hgo; [apply attempts_made_connect|apply sends_connect].
    + rewrite andb_true_r. destruct (a <? MAX_RETRIES c).
      * apply Hgo; [apply attempts_made_sleep|apply sends_sleep].
      * by apply (Hstop (count_failed st1)).
  - destruct ((a <? MAX_RETRIES c) && is_temp_code code).
    + apply Hgo; [apply attempts_made_sleep|apply sends_sleep].
    + by apply (Hstop (count_failed st1)).
  - rewrite andb_true_r. destruct (a <? MAX_RETRIES c).
    + apply Hgo; [apply attempts_made_sleep|apply sends_sleep].
    + by apply (Hstop (count_failed st1)).
Qed.

(** The sends of one recipient: attempts 1 to [k], with [k] at most
    [MAX_RETRIES], none of which but the last was accepted. *)
Lemma retry_schedule w c i msg st :
  ∃ k, k ≤ MAX_RETRIES c ∧
    sends (trace (retry w c i msg (attempts c) st).2)
      = sends (trace st) ++ ((λ attempt, (i, attempt)) <$> seq 1 k) ∧
    ∀ a, 1 ≤ a → a < k → send_message w i a ≠ Accepted.
Proof.
  destruct (DRY_RUN c) eqn:Hdry.
  { exists 0. rewrite retry_dry_run by done. simpl. rewrite app_nil_r.
    split_and!; [lia|done|intros; lia]. }
  destruct (retry_sends w c i msg (attempts c) st) as (made & Hm & Hs).
  destruct (retry_attempts w c i msg Hdry (MAX_RETRIES c) 1 st)
    as (k & Hle & _ & Hk & Hin & _).
  unfold attempts in Hm. rewrite Hk in Hm. apply app_inv_head in Hm as <-.
  exists k. split_and!; [done..|].
  intros a Ha Hlt Hacc. specialize (Hin a Ha ltac:(lia)).
  unfold goes_on in Hin. by rewrite Hacc in Hin.
Qed.

Lemma process_recipient_schedule w j total i r st :
  ∃ k, k ≤ MAX_RETRIES (cfg j) ∧
    sends (trace (process_recipient w j total i r st).2)
      = sends (trace st) ++ ((λ attempt, (i, attempt)) <$> seq 1 k) ∧
    ∀ a, 1 ≤ a → a < k → send_message w i a ≠ Accepted.
Proof.
  assert (∃ k, k ≤ MAX_RETRIES (cfg j) ∧
    sends (trace st) = sends (trace st) ++ ((λ attempt, (i, attempt)) <$> seq 1 k) ∧
    ∀ a, 1 ≤ a → a < k → send_message w i a ≠ Accepted) as Hnone.
  { exists 0. simpl. rewrite app_nil_r. split_and!; [lia|done|intros; lia]. }
  unfold process_recipient.
  destruct (normalize_email _ _ _) as [n|]; [|done].
  destruct (truthy n); [|done].
  case_bool_decide; [done|].
  rewrite complete_step_send. unfold send_step.
  set (msg := build_message _ _ _ _ _ _ _ _).
  destruct (retry_schedule w (cfg j) i msg st) as (k & Hle & Hs & Hacc).
  destruct (retry _ _ _ _ _ _) as [b st']. simpl in *.
  exists k. split_and!; [done| |done].
  destruct (i <? total); [|done]. by rewrite sends_sleep.
Qed.

Lemma process_from_schedule w j total rows : ∀ i st,
  ∃ ks, length ks = length rows ∧ Forall (λ k, k ≤ MAX_RETRIES (cfg j)) ks ∧
    sends (trace (process_from w j total i rows st).2) = sends (trace st) ++ schedule i ks ∧
    ∀ p k a, ks !! p = Some k → 1 ≤ a → a < k → send_message w (i + p) a ≠ Accepted.
Proof.
  induction rows as [|r rest IH]; intros i st; simpl.
  { exists []. simpl. rewrite app_nil_r. split_and!; [done..|]. intros p k a Hp. done. }
  destruct (process_recipient_schedule w j total i r st) as (k & Hle & Hs & Hacc).
  destruct (process_recipient w j total i r st) as [b st1]. simpl in *.
  destruct (IH (S i) st1) as (ks & Hlen & Hall & Hss & Haccs).
  destruct (process_from w j total (S i) rest st1) as [bs st2]. simpl in *.
  exists (k :: ks). split_and!.
  - simpl. by rewrite Hlen.
  - by constructor.
  - simpl. by rewrite Hss, Hs, <- app_assoc.
  - intros [|p] k' a Hp; simpl in Hp.
    + injection Hp as <-. rewrite Nat.add_0_r. apply Hacc.
    + replace (i + S p) with (S i + p) by lia. by eapply Haccs.
Qed.

(** X18. The sends of every run are those of the recipients in input order, each
    with attempts numbered 1, 2, ... up to at most [MAX_RETRIES]; an attempt
    that was accepted is the last one of its recipient. *)
Theorem sends_follow_schedule (w : world) (j : job) (rows : list row) :
  ∃ ks, length ks = length rows ∧
    Forall (λ k, k ≤ MAX_RETRIES (cfg j)) ks ∧
    sends (trace (dispatch w j rows).2) = schedule 1 ks ∧
    ∀ p k a, ks !! p = Some k → 1 ≤ a → a < k → send_message w (S p) a ≠ Accepted.
Proof.
  unfold dispatch.
  destruct (process_from_schedule w j (length rows) rows 1 initial)
    as (ks & Hlen & Hall & Hs & Hacc).
  destruct (process_from _ _ _ _ _ _) as [bs st]. cbn [fst snd] in *.
  exists ks. split_and!; [done..| |done].
  rewrite sends_emit, Hs. simpl. by rewrite app_nil_r.
Qed.

(** *** When the counters do partition the recipients *)







(** *** Which session a message goes over *)

Lemma routed_app cur t e :
  routed cur (t ++ [e]) ↔
  routed cur t ∧ match e with
                 | SendMessage s _ _ _ => current cur t = Some s
                 | _ => True
                 end.
Proof.
  revert cur. induction t as [|e' t IH]; intros cur; simpl.
  - destruct e; simpl; tauto.
  - destruct e'; simpl; rewrite IH; tauto.
Qed.

Lemma current_app cur t e :
  current cur (t ++ [e]) = match e with
                           | Connect s => Some s
                           | _ => current cur t
                           end.
Proof.
  revert cur. induction t as [|e' t IH]; intros cur; simpl.
  - by destruct e.
  - destruct e'; simpl; by rewrite IH.
Qed.

Lemma well_routed_send st i a m :
  well_routed st → well_routed (emit (SendMessage (smtp st) i a m) st).
Proof.
  intros [Hr Hc]. unfold well_routed. simpl. by rewrite routed_app, current_app.
Qed.

Lemma well_routed_sleep st q : well_routed st → well_routed (emit (Sleep q) st).
Proof.
  intros [Hr Hc]. unfold well_routed. simpl. by rewrite routed_app, current_app.
Qed.

Lemma well_routed_connect st : well_routed st → well_routed (connect st).
Proof.
  intros [Hr Hc]. unfold well_routed, connect. simpl. by rewrite routed_app, current_app.
Qed.

Lemma retry_routed w c i msg atts : ∀ st,
  well_routed st → well_routed (retry w c i msg atts st).2.
Proof.
  induction atts as [|a rest IH]; intros st Hst; simpl; [done|].
  destruct (DRY_RUN c); [done|].
  pose proof (well_routed_send st i a msg Hst) as Hst1.
  unfold after_failure.
  destruct (send_message w i a) as [| |code|]; simpl; [done|..];
    split_tests; try done; apply IH;
    try (by apply well_routed_connect); by apply well_routed_sleep.
Qed.

Lemma process_recipient_routed w j total i r st :
  well_routed st → well_routed (process_recipient w j total i r st).2.
Proof.
  intros Hst. unfold process_recipient.
  destruct (normalize_email _ _ _) as [n|]; [|done].
  destruct (truthy n); [|done].
  case_bool_decide; [done|].
  rewrite complete_step_send. unfold send_step.
  set (msg := build_message _ _ _ _ _ _ _ _).
  pose proof (retry_routed w (cfg j) i msg (attempts (cfg j)) st Hst) as Hr.
  destruct (retry _ _ _ _ _ _) as [b st']. simpl in *.
  destruct (i <? total); [|done]. by apply well_routed_sleep.
Qed.

Lemma process_from_routed w j total rows : ∀ i st,
  well_routed st → well_routed (process_from w j total i rows st).2.
Proof.
  induction rows as [|r rest IH]; intros i st Hst; simpl; [done|].
  pose proof (process_recipient_routed w j total i r st Hst) as H1.
  destruct (process_recipient w j total i r st) as [b st1].
  specialize (IH (S i) st1 H1).
  by destruct (process_from w j total (S i) rest st1) as [bs st2].
Qed.

(** X20. In every run each message is sent over the session that was opened
    last: after a reconnection no send goes over an earlier session. *)
Theorem sends_use_latest_session (w : world) (j : job) (rows : list row) :
  routed None (trace (dispatch w j rows).2).
Proof.
  unfold dispatch.
  assert (well_routed initial) as Hi by done.
  pose proof (process_from_routed w j (length rows) rows 1 initial Hi) as [Hr Hc].
  destruct (process_from _ _ _ _ _ _) as [bs st]. cbn [fst snd] in *.
  simpl. by rewrite routed_app.
Qed.

(** *** The shape of a trace *)

Lemma retry_extends w c i msg atts : ∀ st,
  trace st `prefix_of` trace (retry w c i msg atts st).2.
Proof.
  induction atts as [|a rest IH]; intros st; simpl; [done|].
  destruct (DRY_RUN c); [done|].
  assert (∀ st', trace st ++ [SendMessage (smtp st) i a msg] `prefix_of` trace st' →
                 trace st `prefix_of` trace st') as Hext.
  { intros st' H. etrans; [|exact H]. by apply prefix_app_r. }
  unfold after_failure.
  destruct (send_message w i a) as [| |code|]; simpl; [by apply prefix_app_r|..];
    split_tests; try (by apply prefix_app_r); apply Hext;
    (etrans; [|apply IH]); simpl; by apply prefix_app_r.
Qed.

Lemma process_recipient_extends w j total i r st :
  trace st `prefix_of` trace (process_recipient w j total i r st).2.
Proof.
  unfold process_recipient.
  destruct (normalize_email _ _ _) as [n|]; [|done].
  destruct (truthy n); [|done].
  case_bool_decide; [done|].
  rewrite complete_step_send. unfold send_step.
  set (msg := build_message _ _ _ _ _ _ _ _).
  pose proof (retry_extends w (cfg j) i msg (attempts (cfg j)) st) as Hr.
  destruct (retry _ _ _ _ _ _) as [b st']. simpl in *.
  destruct (i <? total); [|done]. simpl. etrans; [exact Hr|]. by apply prefix_app_r.
Qed.

Lemma process_from_extends w j total rows : ∀ i st,
  trace st `prefix_of` trace (process_from w j total i rows st).2.
Proof.
  induction rows as [|r rest IH]; intros i st; simpl; [done|].
  pose proof (process_recipient_extends w j total i r st) as H1.
  destruct (process_recipient w j total i r st) as [b st1].
  specialize (IH (S i) st1).
  destruct (process_from w j total (S i) rest st1) as [bs st2]. simpl in *.
  by etrans.
Qed.

(** X21. Every run opens session 0 first and closes it last, and closes nothing
    else; the sessions opened in between, by reconnections, are numbered from
    1 and stay open. *)
Theorem session_bracket (w : world) (j : job) (rows : list row) :
  let st := (dispatch w j rows).2 in
  ∃ middle,
    trace st = Connect 0 :: middle ++ [Close 0] ∧
    closed middle = [] ∧
    opened middle = seq 1 (sessions st - 1).
Proof.
  destruct (dispatch_sessions w j rows) as (Ho & Hc & Hpos). revert Ho Hc Hpos.
  unfold dispatch.
  pose proof (process_from_extends w j (length rows) rows 1 initial) as [middle Hm].
  destruct (process_from _ _ _ _ _ _) as [bs st]. cbn [fst snd] in *.
  simpl. rewrite Hm. simpl. intros Ho Hc Hpos. exists middle. split; [done|].
  unfold opened, closed in *. simpl in *. rewrite !omap_app in *. simpl in *.
  rewrite app_nil_r in Ho. split.
  - by apply app_eq_unit in Hc as [[? _]|[_ [=]]].
  - destruct (sessions st) as [|n]; [lia|]. simpl in Ho. injection Ho as Ho.
    by replace (S n - 1) with n by lia.
Qed.

(** *** Outcomes and sends *)

Lemma retry_ends w c i msg : DRY_RUN c = false → ∀ n a st,
  a + n = S (MAX_RETRIES c) →
  ∃ k, k ≤ n ∧
    attempts_made i (trace (retry w c i msg (seq a n) st).2)
      = attempts_made i (trace st) ++ seq a k ∧
    match (retry w c i msg (seq a n) st).1 with
    | Delivered => 1 ≤ k ∧ send_message w i (a + k - 1) = Accepted
    | GaveUp =>
        1 ≤ k ∧ ∃ t, classified w i (a + k - 1) = Some t ∧
                     (t = false ∨ a + k - 1 = MAX_RETRIES c)
    | Exhausted =>
        k = n ∧ (0 < n → send_message w i (a + n - 1) = ServerDisconnected ∧
                         reconnects w i (a + n - 1) = true)
    | _ => False
    end.
Proof.
  intros Hdry. induction n as [|n IH]; intros a st Hsum; simpl.
  { exists 0. simpl. rewrite app_nil_r. split_and!; [lia|done|done|lia]. }
  rewrite Hdry. unfold after_failure.
  set (st1 := emit (SendMessage (smtp st) i a msg) st).
  assert (attempts_made i (trace st1) = attempts_made i (trace st) ++ [a]) as Hm1
    by apply attempts_made_send.
  assert (∀ st2, attempts_made i (trace st2) = attempts_made i (trace st1) →
    (n = 0 → send_message w i a = ServerDisconnected ∧ reconnects w i a = true) →
    ∃ k, k ≤ S n ∧
      attempts_made i (trace (retry w c i msg (seq (S a) n) st2).2)
        = attempts_made i (trace st) ++ a :: seq (S a) (k - 1) ∧ 1 ≤ k ∧
      match (retry w c i msg (seq (S a) n) st2).1 with
      | Delivered => 1 ≤ k ∧ send_message w i (a + k - 1) = Accepted
      | GaveUp =>
          1 ≤ k ∧ ∃ t, classified w i (a + k - 1) = Some t ∧
                       (t = false ∨ a + k - 1 = MAX_RETRIES c)
      | Exhausted =>
          k = S n ∧ (0 < S n → send_message w i (a + S n - 1) = ServerDisconnected ∧
                               reconnects w i (a + S n - 1) = true)
      | _ => False
      end) as Hgo.
  { intros st2 Hm2 Hlast. destruct (IH (S a) st2) as (k & Hle & Hm & Hb); [lia|].
    exists (S k). rewrite Hm, Hm2, Hm1, <- app_assoc. simpl. rewrite Nat.sub_0_r.
    split_and!; [lia|done|lia|].
    destruct (retry w c i msg (seq (S a) n) st2).1; try done.
    - destruct Hb as [Hk Hs]. split; [lia|].
      by replace (a + S k - 1) with (S a + k - 1) by lia.
    - destruct Hb as (Hk & t & Hcl & Ht). split; [lia|]. exists t.
      replace (a + S k - 1) with (S a + k - 1) by lia. done.
    - destruct Hb as [-> Hn]. split; [done|]. intros _.
      destruct n as [|n].
      + replace (a + 1 - 1) with a by lia. by apply Hlast.
      + replace (a + S (S n) - 1) with (S a + S n - 1) by lia. apply Hn. lia. }
  assert (∀ t, classified w i a = Some t →
    ∃ k, k ≤ S n ∧
      attempts_made i (trace
        (if (a <? MAX_RETRIES c) && t
         then retry w c i msg (seq (S a) n)
                (emit (Sleep (sleep_time a (backoff_uniform w i a))) st1)
         else (GaveUp, count_failed st1)).2)
        = attempts_made i (trace st) ++ seq a k ∧
      match (if (a <? MAX_RETRIES c) && t
             then retry w c i msg (seq (S a) n)
                    (emit (Sleep (sleep_time a (backoff_uniform w i a))) st1)
             else (GaveUp, count_failed st1)).1 with
      | Delivered => 1 ≤ k ∧ send_message w i (a + k - 1) = Accepted
      | GaveUp =>
          1 ≤ k ∧ ∃ t, classified w i (a + k - 1) = Some t ∧
                       (t = false ∨ a + k - 1 = MAX_RETRIES c)
      | Exhausted =>
          k = S n ∧ (0 < S n → send_message w i (a + S n - 1) = ServerDisconnected ∧
                               reconnects w i (a + S n - 1) = true)
      | _ => False
      end) as Hfail.
  { intros t Hcl. destruct ((a <? MAX_RETRIES c) && t) eqn:Hcont.
    - apply andb_true_iff in Hcont as [Hlt%Nat.ltb_lt ->].
      destruct (Hgo (emit (Sleep (sleep_time a (backoff_uniform w i a))) st1))
        as (k & Hle & Hm & Hk & Hb); [apply attempts_made_sleep|lia|].
      exists k. split_and!; [done| |done].
      rewrite Hm. destruct k as [|k]; [lia|]. simpl. by rewrite Nat.sub_0_r.
    - exists 1. simpl. split_and!; [lia|done|lia|].
      exists t. replace (a + 1 - 1) with a by lia. split; [done|].
      apply andb_false_iff in Hcont as [Hge%Nat.ltb_ge|Ht]; [right; lia|by left]. }
  unfold classified in Hfail.
  destruct (send_message w i a) as [| |code|] eqn:Hsend.
  - exists 1. simpl. split_and!; [lia|done|lia|].
    by replace (a + 1 - 1) with a by lia.
  - destruct (reconnects w i a) eqn:Hre; [|by apply Hfail].
    destruct (Hgo (connect st1)) as (k & Hle & Hm & Hk & Hb);
      [apply attempts_made_connect|done|].
    exists k. split_and!; [done| |done].
    rewrite Hm. destruct k as [|k]; [lia|]. simpl. by rewrite Nat.sub_0_r.
  - by apply Hfail.
  - by apply Hfail.
Qed.

Lemma attempts_made_sends i t :
  attempts_made i t
  = omap (λ p : nat * nat, if decide (p.1 = i) then Some (p.2) else None) (sends t).
Proof.
  induction t as [|e t IH]; [done|].
  change (e :: t) with ([e] ++ t). unfold attempts_made, sends in *.
  rewrite !omap_app, IH. f_equal. by destruct e.
Qed.

Lemma process_recipient_frame w j total i r st i' :
  i' ≠ i →
  attempts_made i' (trace (process_recipient w j total i r st).2)
  = attempts_made i' (trace st).
Proof.
  intros Hne. destruct (process_recipient_schedule w j total i r st) as (k & _ & Hs & _).
  rewrite !attempts_made_sends, Hs, omap_app.
  rewrite <- (app_nil_r (omap _ (sends (trace st)))) at 2. f_equal. clear Hs.
  induction (seq 1 k) as [|a l IH]; [done|]. simpl.
  destruct (decide (i = i')) as [Heq|]; [by symmetry in Heq|exact IH].
Qed.

Lemma process_recipient_ends w j total i r st :
  ∃ k, attempts_made i (trace (process_recipient w j total i r st).2)
       = attempts_made i (trace st) ++ seq 1 k ∧
       ends_after w (cfg j) i (process_recipient w j total i r st).1 k.
Proof.
  assert (∀ b, b = InvalidEmail ∨ b = Suppressed →
    ∃ k, attempts_made i (trace st) = attempts_made i (trace st) ++ seq 1 k ∧
         ends_after w (cfg j) i b k) as Hnone.
  { intros b Hb. exists 0. simpl. rewrite app_nil_r. by destruct Hb as [-> | ->]. }
  unfold process_recipient.
  destruct (normalize_email _ _ _) as [n|]; [|apply Hnone; by left].
  destruct (truthy n); [|apply Hnone; by left].
  case_bool_decide; [apply Hnone; by right|].
  rewrite complete_step_send. unfold send_step.
  set (msg := build_message _ _ _ _ _ _ _ _).
  destruct (DRY_RUN (cfg j)) eqn:Hdry.
  { rewrite retry_dry_run by done. exists 0. simpl. rewrite app_nil_r.
    split; [|done]. destruct (i <? total); [|done]. by rewrite attempts_made_sleep. }
  pose proof (MAX_RETRIES_pos (cfg j)) as Hpos.
  destruct (retry_ends w (cfg j) i msg Hdry (MAX_RETRIES (cfg j)) 1 st)
    as (k & Hle & Hm & Hb); [lia|].
  fold (attempts (cfg j)) in Hm, Hb.
  destruct (retry _ _ _ _ _ _) as [b st']. simpl in *.
  exists k. split.
  - destruct (i <? total); [|done]. by rewrite attempts_made_sleep.
  - destruct b; simpl; try done.
    + destruct Hb as [Hk Hs]. split; [done|]. by rewrite Nat.sub_0_r in Hs.
    + destruct Hb as (Hk & t & Hcl & Ht). rewrite Nat.sub_0_r in Hcl, Ht.
      split; [done|]. by exists t.
    + destruct Hb as [-> Hn]. rewrite Nat.sub_0_r in Hn.
      destruct Hn as [Hs Hr]; [lia|]. done.
Qed.

Lemma process_from_ends w j total rows : ∀ i st,
  (∀ i', i' < i →
     attempts_made i' (trace (process_from w j total i rows st).2)
     = attempts_made i' (trace st)) ∧
  (∀ p b, (process_from w j total i rows st).1 !! p = Some b →
     ∃ k, attempts_made (i + p) (trace (process_from w j total i rows st).2)
          = attempts_made (i + p) (trace st) ++ seq 1 k ∧
          ends_after w (cfg j) (i + p) b k).
Proof.
  induction rows as [|r rest IH]; intros i st; simpl; [done|].
  pose proof (process_recipient_ends w j total i r st) as (k & Hm & Hk).
  pose proof (λ i', process_recipient_frame w j total i r st i') as Hframe.
  destruct (process_recipient w j total i r st) as [b st1]. simpl in *.
  destruct (IH (S i) st1) as [Hold Hnew].
  destruct (process_from w j total (S i) rest st1) as [bs st2]. simpl in *.
  split.
  - intros i' Hlt. rewrite Hold by lia. apply Hframe. lia.
  - intros [|p] b' Hp; simpl in Hp.
    + injection Hp as <-. exists k. rewrite Nat.add_0_r, Hold by lia. done.
    + destruct (Hnew p b' Hp) as (k' & Hm' & Hk'). exists k'.
      replace (i + S p) with (S (i + p)) by lia. rewrite Hm', Hframe by lia. done.
Qed.

(** X22. In every run the sends made for a recipient are attempts 1 to [k], and
    the line that settled it tells how they ended: no send for an invalid or
    suppressed recipient nor in a dry run; for a recipient counted in [sent]
    the last send was accepted; one is given up only after a send that failed
    for good or after the last attempt failed; the loop runs out only when
    the last attempt was disconnected and the reconnection succeeded. *)
Theorem outcome_matches_sends (w : world) (j : job) (rows : list row)
    (p : nat) (b : branch) :
  (dispatch w j rows).1 !! p = Some b →
  ∃ k, attempts_made (S p) (trace (dispatch w j rows).2) = seq 1 k ∧
       ends_after w (cfg j) (S p) b k.
Proof.
  unfold dispatch.
  destruct (process_from_ends w j (length rows) rows 1 initial) as [_ Hnew].
  destruct (process_from _ _ _ _ _ _) as [bs st]. cbn [fst snd] in *.
  intros Hp. destruct (Hnew p b Hp) as (k & Hm & Hk). exists k. split; [|done].
  change (1 + p) with (S p) in Hm. rewrite attempts_made_emit, Hm. simpl. by rewrite app_nil_r.
Qed.

Lemma outcome_matches_sends_witness :
  ∃ k, attempts_made 1 (trace (dispatch Sample.drops_once
                                 (Sample.job_of Sample.live ∅) [Sample.ann]).2)
       = seq 1 k ∧
       ends_after Sample.drops_once Sample.live 1 Delivered k.
Proof.
  apply (outcome_matches_sends Sample.drops_once (Sample.job_of Sample.live ∅)
           [Sample.ann] 0 Delivered).
  reflexivity.
Defined.

(** *** The sleeps of a run *)




(** *** Pacing *)




